(** * Media processing pipeline (backend/processing/processing.go)

    A shallow embedding of the upload-event handler [processMedia], of the
    transcode sequence [transcodeVideo] with its helpers [isVideoFile] and
    [getVideoDuration], and of the status endpoint [GetJobStatus], followed by
    the properties the specification states about them.

    The two SQL databases are modelled as a store (the [media] table keyed
    by id, the [processing_jobs] table in insertion order).  Everything the
    handler does outside its own memory (SQL statements, object-store calls,
    file-system calls, the two external tools, log lines) is recorded, in
    order, as a list of events.  The outcome of each such call is not decided
    by the handler; it is read from an environment record that has one field
    per call site.  The three functions of Go's library whose definition
    needs the Unicode tables or a decimal-to-binary conversion are parameters
    ([GoLib]); the examples instantiate them with their restriction to
    ASCII and to a few numbers. *)

From Stdlib Require Import ZArith Ascii.
From Stdlib Require Import Floats.SpecFloat.
From stdpp Require Import base option gmap strings list.
From stdpp Require Import pretty.

Local Open Scope Z_scope.

(** ** Go values *)

(** A Go [error] value: [None] is [nil], [Some msg] is an error whose
    [Error()] text is [msg]. *)
Abbreviation error := (option string).

(** A Go pair [(value, err)] in which [value] is only meaningful when
    [err == nil]. *)
Inductive result (A : Type) : Type :=
| Ok (a : A)
| Err (e : string).
Arguments Ok {A} a.
Arguments Err {A} e.

(** [fmt.Errorf("<prefix>: %w", err)]: the text of the wrapping error. *)
Definition Errorf (prefix e : string) : string := prefix +:+ ": " +:+ e.

(** [float64] values, by their IEEE 754 description. *)
Abbreviation float64 := spec_float.

(** The zero value of a [float64] variable. *)
Definition float64_zero : float64 := S754_zero false.

Definition int64_min : Z := - 2 ^ 63.
Definition int64_max : Z := 2 ^ 63 - 1.

(** The conversion [int(f)] of a [float64]: the fraction is discarded
    (truncation towards zero).  For a value that does not fit (too large,
    infinite, not a number) Go leaves the result to the implementation; the
    amd64 result is used here. *)
Definition int_of_float64 (f : float64) : Z :=
  match f with
  | S754_zero _ => 0
  | S754_finite s m e =>
      let mag := if Z.leb 0 e then Z.shiftl (Z.pos m) e
                 else Z.shiftr (Z.pos m) (- e) in
      let v := if s then - mag else mag in
      if Z.leb int64_min v && Z.leb v int64_max then v else int64_min
  | S754_infinity _ | S754_nan => int64_min
  end.

(** The functions of Go's standard library that the handler applies to
    strings and whose full definition needs the Unicode tables. *)
Class GoLib : Type := {
  (** [strings.ToLower] *)
  ToLower : string → string;
  (** [strings.TrimSpace] *)
  TrimSpace : string → string;
  (** [fmt.Sscanf(s, "%f", &x)]: [Some v] when a number is scanned and stored
      in [x], [None] when it returns an error and leaves [x] alone. *)
  Sscanf_f : string → option float64
}.

(** Go's package [path/filepath], on a system whose separator is [/]. *)
Module filepath.

(** [filepath.Ext]: the suffix of [path] that starts at the last dot of its
    last element, empty when that element has no dot.  The scan runs from the
    last byte towards the first, as the library's loop does; [suffix] is what
    has been walked over. *)
Fixpoint Ext_scan (rev_path : list ascii) (suffix : string) : string :=
  match rev_path with
  | [] => ""
  | c :: rest =>
      if Ascii.eqb c "/" then ""
      else if Ascii.eqb c "." then String c suffix
      else Ext_scan rest (String c suffix)
  end.

Definition Ext (path : string) : string :=
  Ext_scan (rev (String.list_ascii_of_string path)) "".

(** The elements of a path: what stands between its separators, empty
    elements included. *)
Fixpoint elements (path : string) : list string :=
  match path with
  | EmptyString => [EmptyString]
  | String c rest =>
      if Ascii.eqb c "/" then EmptyString :: elements rest
      else match elements rest with
           | e :: es => String c e :: es
           | [] => [String c EmptyString]
           end
  end.

(** One round of the loop of [filepath.Clean], on the element that starts
    at the read position; [kept] holds the elements written so far, the last
    one first.  A separator (an empty element) and a [.] element are
    skipped.  A [..] element takes the last element written back when there
    is one that is not itself a [..]; otherwise it is dropped for a rooted
    path and written for a path that is not rooted.  Every other element is
    written. *)
Definition Clean_step (rooted : bool) (kept : list string) (e : string)
    : list string :=
  if String.eqb e "" then kept
  else if String.eqb e "." then kept
  else if String.eqb e ".." then
    match kept with
    | last :: before =>
        if String.eqb last ".." then (if rooted then kept else e :: kept)
        else before
    | [] => if rooted then kept else [e]
    end
  else e :: kept.

(** [filepath.Clean]: the shortest path that names the same file by
    lexical processing alone.  The empty path gives [.]; the elements
    written are joined by single separators, after the root when the path
    is rooted; a path that is not rooted and of which nothing is written
    gives [.]. *)
Definition Clean (path : string) : string :=
  if String.eqb path "" then "."
  else
    let rooted := String.prefix "/" path in
    let kept := fold_left (Clean_step rooted) (elements path) [] in
    let out := String.concat "/" (rev kept) in
    if rooted then "/" +:+ out
    else if String.eqb out "" then "." else out.

(** [filepath.Join(dir, name)]: the elements that come before the first
    one that is not empty are ignored, the others are joined by separators
    and the result is cleaned; the empty string when both are empty. *)
Definition Join (dir name : string) : string :=
  if String.eqb dir "" then
    if String.eqb name "" then "" else Clean name
  else Clean (dir +:+ "/" +:+ name).

End filepath.

(** ** Data model *)

(** A row of the [media] table, restricted to the columns the pipeline reads
    or writes.  A nullable column is an [option]. *)
Record MediaRow : Type := {
  owner_id : Z;
  s3_key_original : string;
  s3_key_processed : option string;
  size_bytes : option Z;
  duration_seconds : option Z;
  status : string
}.

(** A row of the [processing_jobs] table.  [created_at] is nullable in the
    schema, but the only insert of the repository leaves it to its default,
    [NOW()], so no row has it NULL. *)
Record JobRow : Type := {
  job_id : string;
  job_media_id : string;
  job_status : string;
  error_message : option string;
  started_at : option Z;
  completed_at : option Z;
  created_at : Z
}.

(** The [media] database (table [media], primary key [id]) and the
    [processing] database (table [processing_jobs], in insertion order). *)
Record Store : Type := {
  media : gmap string MediaRow;
  processing_jobs : list JobRow
}.

(** [media.MediaUploaded] *)
Record MediaUploaded : Type := {
  MediaID : string;
  S3Key : string;
  OwnerID : Z
}.

(** [JobStatusResponse] *)
Record JobStatusResponse : Type := {
  resp_MediaID : string;
  resp_Status : string;
  resp_ErrorMessage : option string
}.

(** ** SQL statements *)

(** The statements of processing.go with their parameters filled in.  [now]
    is the value of [NOW()], [id] in [InsertJob] is the value the table's
    default gives the new row. *)
Inductive Stmt : Type :=
| InsertJob (id media_id : string) (now : Z)
| UpdateMediaStatus (new_status media_id : string)
| UpdateJobFailed (id msg : string) (now : Z)
| UpdateMediaReady (media_id processed_key : string)
| UpdateJobCompleted (id : string) (now : Z)
| UpdateMediaDuration (media_id : string) (duration : Z)
| UpdateMediaSize (media_id : string) (size : Z)
| SelectLatestJob (media_id : string)
| SelectMedia (media_id : string).

Definition set_status (s : string) (r : MediaRow) : MediaRow :=
  {| owner_id := owner_id r; s3_key_original := s3_key_original r;
     s3_key_processed := s3_key_processed r; size_bytes := size_bytes r;
     duration_seconds := duration_seconds r; status := s |}.

Definition set_ready (key : string) (r : MediaRow) : MediaRow :=
  {| owner_id := owner_id r; s3_key_original := s3_key_original r;
     s3_key_processed := Some key; size_bytes := size_bytes r;
     duration_seconds := duration_seconds r; status := "ready" |}.

Definition set_duration (d : Z) (r : MediaRow) : MediaRow :=
  {| owner_id := owner_id r; s3_key_original := s3_key_original r;
     s3_key_processed := s3_key_processed r; size_bytes := size_bytes r;
     duration_seconds := Some d; status := status r |}.

Definition set_size (n : Z) (r : MediaRow) : MediaRow :=
  {| owner_id := owner_id r; s3_key_original := s3_key_original r;
     s3_key_processed := s3_key_processed r; size_bytes := Some n;
     duration_seconds := duration_seconds r; status := status r |}.

Definition new_job (id media_id : string) (now : Z) : JobRow :=
  {| job_id := id; job_media_id := media_id; job_status := "processing";
     error_message := None; started_at := Some now; completed_at := None;
     created_at := now |}.

Definition job_failed (msg : string) (now : Z) (j : JobRow) : JobRow :=
  {| job_id := job_id j; job_media_id := job_media_id j;
     job_status := "failed"; error_message := Some msg;
     started_at := started_at j; completed_at := Some now;
     created_at := created_at j |}.

Definition job_completed (now : Z) (j : JobRow) : JobRow :=
  {| job_id := job_id j; job_media_id := job_media_id j;
     job_status := "completed"; error_message := error_message j;
     started_at := started_at j; completed_at := Some now;
     created_at := created_at j |}.

(** [UPDATE processing_jobs SET ... WHERE id = $1] *)
Definition update_job (id : string) (f : JobRow → JobRow)
    (jobs : list JobRow) : list JobRow :=
  (λ j, if String.eqb (job_id j) id then f j else j) <$> jobs.

Definition on_media (f : gmap string MediaRow → gmap string MediaRow)
    (st : Store) : Store :=
  {| media := f (media st); processing_jobs := processing_jobs st |}.

Definition on_jobs (f : list JobRow → list JobRow) (st : Store) : Store :=
  {| media := media st; processing_jobs := f (processing_jobs st) |}.

(** What a statement that the database accepts does to the store.  An
    [UPDATE ... WHERE id = $1] whose id matches no row changes nothing and is
    not an error. *)
Definition apply_stmt (s : Stmt) (st : Store) : Store :=
  match s with
  | InsertJob id m now => on_jobs (λ jobs, jobs ++ [new_job id m now]) st
  | UpdateMediaStatus s m => on_media (alter (set_status s) m) st
  | UpdateJobFailed id msg now => on_jobs (update_job id (job_failed msg now)) st
  | UpdateMediaReady m key => on_media (alter (set_ready key) m) st
  | UpdateJobCompleted id now => on_jobs (update_job id (job_completed now)) st
  | UpdateMediaDuration m d => on_media (alter (set_duration d) m) st
  | UpdateMediaSize m n => on_media (alter (set_size n) m) st
  | SelectLatestJob _ | SelectMedia _ => st
  end.

(** ** Events *)

Inductive Level : Type := Info | Error.

Inductive Event : Type :=
| EvLog (lvl : Level) (msg : string) (fields : list (string * string))
| EvSql (s : Stmt) (outcome : error)
| EvMinioNew
| EvMkdirTemp
| EvRemoveAll (dir : string)
| EvGetObject (bucket key : string)
| EvCreate (path : string)
| EvCopy
| EvClose (what : string)
| EvCommand (name : string) (args : list string)
| EvOpen (path : string)
| EvStat
| EvPutObject (bucket key : string) (size : Z) (content_type : string).

(** ** The monad of the handler: store passing, with the events of the run *)

Definition M (A : Type) : Type := Store → A * Store * list Event.

Definition ret {A} (a : A) : M A := λ st, (a, st, []).

Definition bind {A B} (m : M A) (f : A → M B) : M B :=
  λ st, let '(a, st1, t1) := m st in
        let '(b, st2, t2) := f a st1 in
        (b, st2, t1 ++ t2).

Global Instance M_ret : MRet M := @ret.
Global Instance M_bind : MBind M := λ A B f m, bind m f.

Definition value {A} (r : A * Store * list Event) : A := r.1.1.
Definition final {A} (r : A * Store * list Event) : Store := r.1.2.
Definition events {A} (r : A * Store * list Event) : list Event := r.2.

(** An effect with no result. *)
Definition emit (e : Event) : M unit := λ st, (tt, st, [e]).

(** A call outside the process: it is recorded, and its outcome is the one
    the environment gives. *)
Definition call {A} (e : Event) (outcome : A) : M A := λ st, (outcome, st, [e]).

(** [db.Exec] / [mediaDB.Exec] / [QueryRow]: a statement the database
    rejects (connection lost, malformed id, ...) leaves the store as it was
    and returns the error. *)
Definition Exec (s : Stmt) (fault : error) : M error :=
  λ st, match fault with
        | Some e => (Some e, st, [EvSql s (Some e)])
        | None => (None, apply_stmt s st, [EvSql s None])
        end.

(** [defer f()]: [f] runs when the function body is left, whatever the path. *)
Definition defer {A} (cleanup : M unit) (body : M A) : M A :=
  x ← body; cleanup;; ret x.

(** ** The environment of one handler run *)

(** One field per call the handler makes outside its own memory: the error
    the call returns ([None] for success) and, where the call produces a
    value, that value. *)
Record Env : Type := {
  (** [cfg.S3Bucket()] *)
  S3Bucket : string;
  (** the [INSERT INTO processing_jobs ... RETURNING id] of [processMedia];
      [new_job_id] is the id [gen_random_uuid()] gives the row, the text of
      a UUID *)
  new_job_id : string;
  insert_job_now : Z;
  insert_job_err : error;
  (** [UPDATE media SET status = 'processing'] *)
  set_processing_err : error;
  (** [UPDATE media SET status = 'failed'] *)
  set_failed_err : error;
  (** [UPDATE processing_jobs SET status = 'failed', ...] *)
  fail_job_now : Z;
  fail_job_err : error;
  (** [UPDATE media SET status = 'ready', s3_key_processed = $2] *)
  set_ready_err : error;
  (** [UPDATE processing_jobs SET status = 'completed', ...] *)
  complete_job_now : Z;
  complete_job_err : error;
  (** [getMinioClient()] *)
  minio_new : error;
  (** [os.MkdirTemp("", "media-processing-")] *)
  mkdir_temp : result string;
  (** [client.GetObject] *)
  get_object : error;
  (** [os.Create(inputPath)] *)
  os_create : error;
  (** [io.Copy(inputFile, object)] *)
  io_copy : error;
  (** [cmd.CombinedOutput()] of ffmpeg: stdout and stderr together, and the
      error, which is not [nil] when the tool cannot be started or exits
      with a non-zero status *)
  ffmpeg : string * error;
  (** [cmd.Output()] of ffprobe: stdout, and the error *)
  ffprobe : string * error;
  (** [UPDATE media SET duration_seconds = $2] *)
  set_duration_err : error;
  (** [os.Open(outputPath)] *)
  os_open : error;
  (** [outputFile.Stat()], with [stat.Size()] *)
  file_stat : result Z;
  (** [client.PutObject] *)
  put_object : error;
  (** [UPDATE media SET size_bytes = $2] *)
  set_size_err : error
}.

(** The two queries of [GetJobStatus]. *)
Record QueryEnv : Type := {
  select_job_err : error;
  select_media_err : error
}.

(** ** The program *)

Section Processing.
Context {golib : GoLib}.

Definition videoExts : list string :=
  [".mp4"; ".mkv"; ".avi"; ".mov"; ".wmv"; ".flv"; ".webm"; ".m4v"; ".mpeg";
   ".mpg"; ".3gp"].

(** The loop [for _, e := range exts { if ext == e { return true } }
    return false]. *)
Fixpoint ext_in (ext : string) (exts : list string) : bool :=
  match exts with
  | [] => false
  | e :: rest => if String.eqb ext e then true else ext_in ext rest
  end.

Definition isVideoFile (key : string) : bool :=
  let ext := ToLower (filepath.Ext key) in
  ext_in ext videoExts.

Definition getVideoDuration (env : Env) (filePath : string) : M Z :=
  '(output, err) ←
    call (EvCommand "ffprobe"
            ["-v"; "error"; "-show_entries"; "format=duration"; "-of";
             "default=noprint_wrappers=1:nokey=1"; filePath])
         (ffprobe env);
  match err with
  | Some _ => ret 0
  | None =>
      let duration := default float64_zero (Sscanf_f (TrimSpace output)) in
      ret (int_of_float64 duration)
  end.

Definition transcodeVideo (env : Env) (mediaID s3Key : string)
    : M (string * error) :=
  err ← call EvMinioNew (minio_new env);
  match err with
  | Some e => ret ("", Some (Errorf "failed to create MinIO client" e))
  | None =>
  (* Create temp directory for processing *)
  r ← call EvMkdirTemp (mkdir_temp env);
  match r with
  | Err e => ret ("", Some (Errorf "failed to create temp directory" e))
  | Ok tempDir =>
  defer (emit (EvRemoveAll tempDir)) (
  (* Download original file *)
  let inputPath := filepath.Join tempDir ("input" +:+ filepath.Ext s3Key) in
  err ← call (EvGetObject (S3Bucket env) s3Key) (get_object env);
  match err with
  | Some e => ret ("", Some (Errorf "failed to get object from S3" e))
  | None =>
  defer (emit (EvClose "object")) (
  err ← call (EvCreate inputPath) (os_create env);
  match err with
  | Some e => ret ("", Some (Errorf "failed to create input file" e))
  | None =>
  err ← call EvCopy (io_copy env);
  emit (EvClose inputPath) ;;
  match err with
  | Some e => ret ("", Some (Errorf "failed to download file" e))
  | None =>
  (* Prepare output path *)
  let outputPath := filepath.Join tempDir "output.mp4" in
  (* Check if file is a video that needs transcoding *)
  if negb (isVideoFile s3Key) then
    emit (EvLog Info "file is not a video, skipping transcoding"
            [("s3_key", s3Key)]) ;;
    ret ("", None)
  else
  (* Run FFMPEG transcoding *)
  '(output, err) ←
    call (EvCommand "ffmpeg"
            ["-i"; inputPath; "-c:v"; "libx265"; "-crf"; "28"; "-preset";
             "fast"; "-tag:v"; "hvc1"; "-c:a"; "aac"; "-movflags";
             "+faststart"; "-y"; outputPath])
         (ffmpeg env);
  match err with
  | Some e =>
      emit (EvLog Error "ffmpeg failed" [("error", e); ("output", output)]) ;;
      ret ("", Some (Errorf "ffmpeg transcoding failed" e))
  | None =>
  (* Get video duration using ffprobe *)
  duration ← getVideoDuration env outputPath;
  (if Z.ltb 0 duration
   then _ ← Exec (UpdateMediaDuration mediaID duration)
                  (set_duration_err env); ret tt
   else ret tt) ;;
  (* Upload processed file to S3 *)
  let processedKey := "processed/" +:+ mediaID +:+ ".mp4" in
  err ← call (EvOpen outputPath) (os_open env);
  match err with
  | Some e => ret ("", Some (Errorf "failed to open output file" e))
  | None =>
  defer (emit (EvClose outputPath)) (
  r ← call EvStat (file_stat env);
  match r with
  | Err e => ret ("", Some (Errorf "failed to stat output file" e))
  | Ok size =>
  err ← call (EvPutObject (S3Bucket env) processedKey size "video/mp4")
              (put_object env);
  match err with
  | Some e => ret ("", Some (Errorf "failed to upload processed file" e))
  | None =>
  (* Update file size *)
  _ ← Exec (UpdateMediaSize mediaID size) (set_size_err env);
  ret (processedKey, None)
  end end) end end end end) end) end end.

Definition processMedia (env : Env) (msg : MediaUploaded) : M error :=
  emit (EvLog Info "processing media"
          [("media_id", MediaID msg); ("s3_key", S3Key msg)]) ;;
  (* Create processing job record *)
  err ← Exec (InsertJob (new_job_id env) (MediaID msg) (insert_job_now env))
              (insert_job_err env);
  let jobID := match err with None => new_job_id env | Some _ => "" end in
  match err with
  | Some e => emit (EvLog Error "failed to create processing job"
                      [("error", e)])
  | None => ret tt
  end ;;
  (* Update media status to 'processing' *)
  err ← Exec (UpdateMediaStatus "processing" (MediaID msg))
              (set_processing_err env);
  match err with
  | Some e =>
      emit (EvLog Error "failed to update media status" [("error", e)]) ;;
      ret (Some e)
  | None =>
  (* Process the video *)
  '(processedKey, err) ← transcodeVideo env (MediaID msg) (S3Key msg);
  match err with
  | Some e =>
      emit (EvLog Error "transcoding failed"
              [("error", e); ("media_id", MediaID msg)]) ;;
      (* Update status to failed *)
      _ ← Exec (UpdateMediaStatus "failed" (MediaID msg))
                (set_failed_err env);
      (if negb (String.eqb jobID "")
       then _ ← Exec (UpdateJobFailed jobID e (fail_job_now env))
                      (fail_job_err env); ret tt
       else ret tt) ;;
      ret (Some e)
  | None =>
  (* Update media with processed key and status *)
  err ← Exec (UpdateMediaReady (MediaID msg) processedKey)
              (set_ready_err env);
  match err with
  | Some e =>
      emit (EvLog Error "failed to update media with processed key"
              [("error", e)]) ;;
      ret (Some e)
  | None =>
  (* Update processing job as completed *)
  (if negb (String.eqb jobID "")
   then _ ← Exec (UpdateJobCompleted jobID (complete_job_now env))
                  (complete_job_err env); ret tt
   else ret tt) ;;
  emit (EvLog Info "media processing completed"
          [("media_id", MediaID msg); ("processed_key", processedKey)]) ;;
  ret None
  end end end.

End Processing.

(** [QueryRow(...).Scan(...)]: the row the query selects, or an error when
    the database rejects the query or the query selects no row. *)
Definition QueryRow {R} (s : Stmt) (fault : error) (rows : Store → option R)
    : M (result R) :=
  λ st, match fault with
        | Some e => (Err e, st, [EvSql s (Some e)])
        | None =>
            match rows st with
            | Some r => (Ok r, st, [EvSql s None])
            | None => (Err "sql: no rows in result set", st,
                       [EvSql s (Some "sql: no rows in result set")])
            end
        end.

(** [ORDER BY created_at DESC LIMIT 1]: a row with the greatest
    [created_at]; among rows with equal [created_at] the database may return
    any, the first in table order is taken here. *)
Fixpoint latest (jobs : list JobRow) : option JobRow :=
  match jobs with
  | [] => None
  | j :: rest =>
      match latest rest with
      | Some k => if Z.ltb (created_at j) (created_at k) then Some k else Some j
      | None => Some j
      end
  end.

(** [SELECT media_id, status, error_message FROM processing_jobs
     WHERE media_id = $1 ORDER BY created_at DESC LIMIT 1] *)
Definition select_latest_job (mediaID : string) (st : Store) : option JobRow :=
  latest (filter (λ j, job_media_id j = mediaID) (processing_jobs st)).

(** [SELECT id, status FROM media WHERE id = $1] *)
Definition select_media (mediaID : string) (st : Store) : option MediaRow :=
  media st !! mediaID.

Definition GetJobStatus (qenv : QueryEnv) (mediaID : string)
    : M (result JobStatusResponse) :=
  r ← QueryRow (SelectLatestJob mediaID) (select_job_err qenv)
                (select_latest_job mediaID);
  match r with
  | Err _ =>
      (* Check media status directly *)
      r ← QueryRow (SelectMedia mediaID) (select_media_err qenv)
                    (select_media mediaID);
      match r with
      | Err _ => ret (Err "media not found")
      | Ok row =>
          ret (Ok {| resp_MediaID := mediaID; resp_Status := status row;
                     resp_ErrorMessage := None |})
      end
  | Ok j =>
      ret (Ok {| resp_MediaID := job_media_id j; resp_Status := job_status j;
                 resp_ErrorMessage := error_message j |})
  end.

(** ** Changing one field of the environment *)

Definition with_insert_job_err (x : error) (env : Env) : Env :=
  {| S3Bucket := S3Bucket env;
     new_job_id := new_job_id env; insert_job_now := insert_job_now env;
     insert_job_err := x;
     set_processing_err := set_processing_err env;
     set_failed_err := set_failed_err env;
     fail_job_now := fail_job_now env; fail_job_err := fail_job_err env;
     set_ready_err := set_ready_err env;
     complete_job_now := complete_job_now env;
     complete_job_err := complete_job_err env;
     minio_new := minio_new env; mkdir_temp := mkdir_temp env;
     get_object := get_object env; os_create := os_create env;
     io_copy := io_copy env; ffmpeg := ffmpeg env; ffprobe := ffprobe env;
     set_duration_err := set_duration_err env; os_open := os_open env;
     file_stat := file_stat env; put_object := put_object env;
     set_size_err := set_size_err env |}.

Definition with_set_processing_err (x : error) (env : Env) : Env :=
  {| S3Bucket := S3Bucket env;
     new_job_id := new_job_id env; insert_job_now := insert_job_now env;
     insert_job_err := insert_job_err env;
     set_processing_err := x;
     set_failed_err := set_failed_err env;
     fail_job_now := fail_job_now env; fail_job_err := fail_job_err env;
     set_ready_err := set_ready_err env;
     complete_job_now := complete_job_now env;
     complete_job_err := complete_job_err env;
     minio_new := minio_new env; mkdir_temp := mkdir_temp env;
     get_object := get_object env; os_create := os_create env;
     io_copy := io_copy env; ffmpeg := ffmpeg env; ffprobe := ffprobe env;
     set_duration_err := set_duration_err env; os_open := os_open env;
     file_stat := file_stat env; put_object := put_object env;
     set_size_err := set_size_err env |}.

Definition with_io_copy (x : error) (env : Env) : Env :=
  {| S3Bucket := S3Bucket env;
     new_job_id := new_job_id env; insert_job_now := insert_job_now env;
     insert_job_err := insert_job_err env;
     set_processing_err := set_processing_err env;
     set_failed_err := set_failed_err env;
     fail_job_now := fail_job_now env; fail_job_err := fail_job_err env;
     set_ready_err := set_ready_err env;
     complete_job_now := complete_job_now env;
     complete_job_err := complete_job_err env;
     minio_new := minio_new env; mkdir_temp := mkdir_temp env;
     get_object := get_object env; os_create := os_create env;
     io_copy := x; ffmpeg := ffmpeg env; ffprobe := ffprobe env;
     set_duration_err := set_duration_err env; os_open := os_open env;
     file_stat := file_stat env; put_object := put_object env;
     set_size_err := set_size_err env |}.

Definition with_ffmpeg (x : string * error) (env : Env) : Env :=
  {| S3Bucket := S3Bucket env;
     new_job_id := new_job_id env; insert_job_now := insert_job_now env;
     insert_job_err := insert_job_err env;
     set_processing_err := set_processing_err env;
     set_failed_err := set_failed_err env;
     fail_job_now := fail_job_now env; fail_job_err := fail_job_err env;
     set_ready_err := set_ready_err env;
     complete_job_now := complete_job_now env;
     complete_job_err := complete_job_err env;
     minio_new := minio_new env; mkdir_temp := mkdir_temp env;
     get_object := get_object env; os_create := os_create env;
     io_copy := io_copy env; ffmpeg := x; ffprobe := ffprobe env;
     set_duration_err := set_duration_err env; os_open := os_open env;
     file_stat := file_stat env; put_object := put_object env;
     set_size_err := set_size_err env |}.

Definition with_ffprobe (x : string * error) (env : Env) : Env :=
  {| S3Bucket := S3Bucket env;
     new_job_id := new_job_id env; insert_job_now := insert_job_now env;
     insert_job_err := insert_job_err env;
     set_processing_err := set_processing_err env;
     set_failed_err := set_failed_err env;
     fail_job_now := fail_job_now env; fail_job_err := fail_job_err env;
     set_ready_err := set_ready_err env;
     complete_job_now := complete_job_now env;
     complete_job_err := complete_job_err env;
     minio_new := minio_new env; mkdir_temp := mkdir_temp env;
     get_object := get_object env; os_create := os_create env;
     io_copy := io_copy env; ffmpeg := ffmpeg env; ffprobe := x;
     set_duration_err := set_duration_err env; os_open := os_open env;
     file_stat := file_stat env; put_object := put_object env;
     set_size_err := set_size_err env |}.

(** ** What is said about runs *)

(** [post m st Q]: the run of [m] from [st] ends with a value, a store and
    events that satisfy [Q]. *)
Definition post {A} (m : M A) (st : Store)
    (Q : A → Store → list Event → Prop) : Prop :=
  Q (value (m st)) (final (m st)) (events (m st)).

(** [blind m]: neither the value nor the events of [m] depend on the store
    it starts from. *)
Definition blind {A} (m : M A) : Prop :=
  ∀ st st', value (m st) = value (m st') ∧ events (m st) = events (m st').

(** [sim R m m']: the values of [m] and [m'] are related by [R], whatever
    the stores they start from. *)
Definition sim {A} (R : A → A → Prop) (m m' : M A) : Prop :=
  ∀ st st', R (value (m st)) (value (m' st')).

(** [has_row id st]: the media table has a row with this id. *)
Definition has_row (id : string) (st : Store) : Prop :=
  is_Some (media st !! id).

(** The outcome of staging the original file: the working directory, when
    the client, the directory, the request for the object, the local file
    and the copy into it all succeed. *)
Definition staging (env : Env) : option string :=
  match minio_new env, mkdir_temp env, get_object env, os_create env,
        io_copy env with
  | None, Ok d, None, None, None => Some d
  | _, _, _, _, _ => None
  end.

(** [keeps r r']: the columns [status] and [s3_key_processed] of [r'] are
    those of [r]. *)
Definition keeps (r r' : MediaRow) : Prop :=
  status r' = status r ∧ s3_key_processed r' = s3_key_processed r.

(** [frame st st']: the jobs table is the same, the media table has the same
    rows, and no row differs in [status] or [s3_key_processed]. *)
Definition frame (st st' : Store) : Prop :=
  processing_jobs st' = processing_jobs st ∧
  ∀ k, option_Forall2 keeps (media st !! k) (media st' !! k).

(** [handled env msg st tv te v s t]: how the value [v], the store [s] and
    the events [t] of a handler run from [st] that got past the update to
    'processing' stand to the value [tv] and the events [te] of its transcode
    sequence. *)
Definition handled (env : Env) (msg : MediaUploaded) (st : Store)
    (tv : string * error) (te : list Event)
    (v : error) (s : Store) (t : list Event) : Prop :=
  (∀ ev, ev ∈ te → ev ∈ t) ∧
  (∀ name args, EvCommand name args ∈ t → EvCommand name args ∈ te) ∧
  EvSql (UpdateMediaStatus "processing" (MediaID msg)) None ∈ t ∧
  match tv.2 with
  | Some e =>
      v = Some e ∧ e ≠ "" ∧
      EvSql (UpdateMediaStatus "failed" (MediaID msg)) (set_failed_err env)
        ∈ t ∧
      (set_failed_err env = None → has_row (MediaID msg) st →
         status <$> media s !! MediaID msg = Some "failed") ∧
      (insert_job_err env = None → new_job_id env ≠ "" →
         EvSql (UpdateJobFailed (new_job_id env) e (fail_job_now env))
               (fail_job_err env) ∈ t ∧
         (fail_job_err env = None →
            ∃ j, j ∈ processing_jobs s ∧ job_id j = new_job_id env ∧
                 job_media_id j = MediaID msg ∧ job_status j = "failed" ∧
                 error_message j = Some e ∧
                 completed_at j = Some (fail_job_now env)))
  | None =>
      v = set_ready_err env ∧
      EvSql (UpdateMediaReady (MediaID msg) tv.1) (set_ready_err env) ∈ t ∧
      (set_ready_err env = None →
         (has_row (MediaID msg) st →
            status <$> media s !! MediaID msg = Some "ready" ∧
            s3_key_processed <$> media s !! MediaID msg = Some (Some tv.1)) ∧
         (tv.1 = "" → ∀ row, media st !! MediaID msg = Some row →
            media s !! MediaID msg = Some (set_ready "" row)))
  end.

(** ** Concrete instances for the examples *)

Module Fixture.

(** [strings.ToLower] on a string of ASCII bytes: [A]..[Z] become
    [a]..[z], every other byte is kept. *)
Definition lower_byte (c : ascii) : ascii :=
  let n := nat_of_ascii c in
  if (Nat.leb 65 n && Nat.leb n 90)%bool then ascii_of_nat (n + 32) else c.

Fixpoint ascii_ToLower (s : string) : string :=
  match s with
  | EmptyString => EmptyString
  | String c rest => String (lower_byte c) (ascii_ToLower rest)
  end.

(** [strings.TrimSpace] on a string of ASCII bytes: leading and trailing
    tab, line feed, vertical tab, form feed, carriage return and space are
    removed. *)
Definition is_space (c : ascii) : bool :=
  let n := nat_of_ascii c in
  (Nat.leb 9 n && Nat.leb n 13)%bool || Nat.eqb n 32.

Fixpoint trim_left (s : string) : string :=
  match s with
  | EmptyString => EmptyString
  | String c rest => if is_space c then trim_left rest else s
  end.

Fixpoint trim_right (s : string) : string :=
  match s with
  | EmptyString => EmptyString
  | String c rest =>
      match trim_right rest with
      | EmptyString => if is_space c then EmptyString else String c EmptyString
      | rest' => String c rest'
      end
  end.

Definition ascii_TrimSpace (s : string) : string := trim_right (trim_left s).

(** [fmt.Sscanf(s, "%f", &x)] on a few outputs of the probe tool whose value
    is a binary fraction; [N/A] is what the tool prints for a stream of
    unknown length. *)
Definition probe_outputs : list (string * float64) :=
  [("12.500000", S754_finite false 25 (-1));
   ("3.000000", S754_finite false 3 0);
   ("0.750000", S754_finite false 3 (-2));
   ("0.000000", S754_zero false)].

Fixpoint assoc (s : string) (table : list (string * float64)) : option float64 :=
  match table with
  | [] => None
  | (k, v) :: rest => if String.eqb s k then Some v else assoc s rest
  end.

Definition table_Sscanf_f (s : string) : option float64 := assoc s probe_outputs.

Definition go : GoLib :=
  {| ToLower := ascii_ToLower; TrimSpace := ascii_TrimSpace;
     Sscanf_f := table_Sscanf_f |}.

(** An environment in which every call succeeds. *)
Definition env_ok : Env :=
  {| S3Bucket := "media-vault";
     new_job_id := "job-1"; insert_job_now := 100; insert_job_err := None;
     set_processing_err := None; set_failed_err := None;
     fail_job_now := 160; fail_job_err := None;
     set_ready_err := None;
     complete_job_now := 160; complete_job_err := None;
     minio_new := None; mkdir_temp := Ok "/tmp/media-processing-1";
     get_object := None; os_create := None; io_copy := None;
     ffmpeg := ("encoded 300 frames", None);
     ffprobe := ("12.500000" +:+ String "010"%char "", None);
     set_duration_err := None; os_open := None; file_stat := Ok 4096;
     put_object := None; set_size_err := None |}.

Definition with_new_job (id : string) (now : Z) (env : Env) : Env :=
  {| S3Bucket := S3Bucket env;
     new_job_id := id; insert_job_now := now;
     insert_job_err := insert_job_err env;
     set_processing_err := set_processing_err env;
     set_failed_err := set_failed_err env;
     fail_job_now := now + 60; fail_job_err := fail_job_err env;
     set_ready_err := set_ready_err env;
     complete_job_now := now + 60; complete_job_err := complete_job_err env;
     minio_new := minio_new env; mkdir_temp := mkdir_temp env;
     get_object := get_object env; os_create := os_create env;
     io_copy := io_copy env; ffmpeg := ffmpeg env; ffprobe := ffprobe env;
     set_duration_err := set_duration_err env; os_open := os_open env;
     file_stat := file_stat env; put_object := put_object env;
     set_size_err := set_size_err env |}.

Definition row_queued (key : string) : MediaRow :=
  {| owner_id := 7; s3_key_original := key; s3_key_processed := None;
     size_bytes := Some 9000; duration_seconds := None; status := "queued" |}.

Definition clip : MediaUploaded :=
  {| MediaID := "m1"; S3Key := "original/7/m1/clip.MOV"; OwnerID := 7 |}.

Definition notes : MediaUploaded :=
  {| MediaID := "m2"; S3Key := "original/7/m2/notes.pdf"; OwnerID := 7 |}.

Definition store0 : Store :=
  {| media := <["m1" := row_queued (S3Key clip)]>
                (<["m2" := row_queued (S3Key notes)]> ∅);
     processing_jobs := [] |}.

(** The encoder exits with status 1. *)
Definition env_encoder_fails : Env :=
  with_ffmpeg ("x265 [error]: cannot open input", Some "exit status 1")
    (with_new_job "job-2" 200 env_ok).

(** The copy of the object's bytes breaks off. *)
Definition env_fetch_fails : Env := with_io_copy (Some "unexpected EOF") env_ok.

(** The database is away when the status is to be set to 'processing'. *)
Definition env_status_fails : Env :=
  with_set_processing_err (Some "connection refused") env_ok.

(** The insert of the job row is rejected. *)
Definition env_insert_fails : Env :=
  with_insert_job_err (Some "connection refused") env_ok.

(** The probe prints no number. *)
Definition env_probe_na : Env := with_ffprobe ("N/A", None) env_ok.

Definition row_ready (key processed : string) : MediaRow :=
  {| owner_id := 7; s3_key_original := key; s3_key_processed := Some processed;
     size_bytes := Some 4096; duration_seconds := Some 12; status := "ready" |}.

(** A store in which both items are 'ready' and both have a processed key. *)
Definition store_ready : Store :=
  {| media := <["m1" := row_ready (S3Key clip) "processed/m1.mp4"]>
                (<["m2" := row_ready (S3Key notes) "processed/m2.mp4"]> ∅);
     processing_jobs :=
       [{| job_id := "job-1"; job_media_id := "m1"; job_status := "completed";
           error_message := None; started_at := Some 100;
           completed_at := Some 160; created_at := 100 |}] |}.

(** Two attempts on [m1], the later one failed; none on [m2]. *)
Definition store_two_jobs : Store :=
  {| media := media store0;
     processing_jobs :=
       [{| job_id := "job-1"; job_media_id := "m1"; job_status := "completed";
           error_message := None; started_at := Some 100;
           completed_at := Some 160; created_at := 100 |};
        {| job_id := "job-2"; job_media_id := "m1"; job_status := "failed";
           error_message := Some "ffmpeg transcoding failed: exit status 1";
           started_at := Some 200; completed_at := Some 260;
           created_at := 200 |}] |}.

(** The store after [clip] has been processed with every call succeeding. *)
Definition after_first : Store :=
  final (processMedia (golib := go) env_ok clip store0).

Definition qenv_ok : QueryEnv :=
  {| select_job_err := None; select_media_err := None |}.

(** [sub] occurs in [s]. *)
Fixpoint is_substring (sub s : string) : bool :=
  String.prefix sub s ||
  match s with
  | EmptyString => false
  | String _ rest => is_substring sub rest
  end.

End Fixture.

(** ** The media service: the producer of the event, the consumer of the keys *)

(** Three endpoints of backend/media/media.go work on the rows the handler
    works on: [SignUpload] inserts the row, [ConfirmUpload] queues it and
    publishes the event the handler is subscribed to, [DeleteMedia] removes
    the objects under the row's keys and then the row.  They are embedded as
    functions from the store to the response, the store and what was done
    outside the database, the authenticated user being an argument and the
    outcome of each call a field of an environment record, as for the
    handler. *)

(** The error codes of [encore.dev/beta/errs] the endpoints use. *)
Inductive ErrCode : Type :=
| InvalidArgument
| NotFound
| PermissionDenied
| Internal.

(** What an endpoint returns: the response, or
    [errs.B().Code(code).Msg(msg).Err()]. *)
Inductive api_result (A : Type) : Type :=
| Done (a : A)
| Failed (code : ErrCode) (msg : string).
Arguments Done {A} a.
Arguments Failed {A} code msg.

(** What the endpoints do outside the database. *)
Inductive MediaEffect : Type :=
| EfLog (lvl : Level) (msg : string) (fields : list (string * string))
| EfPresignedPutObject (bucket key : string) (minutes : Z)
| EfPublish (ev : MediaUploaded) (outcome : error)
| EfRemoveObject (bucket key : string).

(** [SignUploadRequest] *)
Record SignUploadRequest : Type := {
  req_Filename : string;
  req_MimeType : string
}.

(** [SignUploadResponse] *)
Record SignUploadResponse : Type := {
  signed_UploadURL : string;
  signed_S3Key : string;
  signed_MediaID : string
}.

(** The calls of [SignUpload]: [uuid.New().String()], [getMinioClient()],
    [getS3Bucket()], [PresignedPutObject] with the URL it gives, the
    insert. *)
Record SignEnv : Type := {
  sign_uuid : string;
  sign_minio_err : error;
  sign_bucket : string;
  sign_presigned : result string;
  sign_insert_err : error
}.

(** [fmt.Sprintf("original/%d/%s/%s", userID, mediaID, filename)] *)
Definition original_key (userID : Z) (mediaID filename : string) : string :=
  "original/" +:+ pretty userID +:+ "/" +:+ mediaID +:+ "/" +:+ filename.

(** The row of [INSERT INTO media (id, owner_id, original_filename,
    s3_key_original, mime_type, status, created_at)], on the columns of
    [MediaRow]; the columns the statement does not name are NULL. *)
Definition uploading (userID : Z) (s3Key : string) : MediaRow :=
  {| owner_id := userID; s3_key_original := s3Key;
     s3_key_processed := None; size_bytes := None;
     duration_seconds := None; status := "uploading" |}.

(** The outcome of the insert: the fault of the call or, [id] being the
    primary key of the table, the rejection of an id that is taken. *)
Definition insert_fault (fault : error) (id : string) (st : Store) : error :=
  match fault with
  | Some e => Some e
  | None =>
      match media st !! id with
      | Some _ =>
          Some "duplicate key value violates unique constraint media_pkey"
      | None => None
      end
  end.

(** [SignUpload], for the authenticated user [user]. *)
Definition SignUpload (env : SignEnv) (user : Z) (req : SignUploadRequest)
    (st : Store)
    : api_result SignUploadResponse * Store * list MediaEffect :=
  if String.eqb (req_Filename req) "" then
    (Failed InvalidArgument "filename is required", st, [])
  else
  (* Generate unique S3 key *)
  let mediaID := sign_uuid env in
  let s3Key := original_key user mediaID (req_Filename req) in
  (* Get MinIO client *)
  match sign_minio_err env with
  | Some e =>
      (Failed Internal "failed to create storage client", st,
       [EfLog Error "failed to create MinIO client" [("error", e)]])
  | None =>
  (* Generate presigned URL (valid for 15 minutes) *)
  match sign_presigned env with
  | Err e =>
      (Failed Internal "failed to generate upload URL", st,
       [EfPresignedPutObject (sign_bucket env) s3Key 15;
        EfLog Error "failed to generate presigned URL" [("error", e)]])
  | Ok presignedURL =>
  (* Create media record with 'uploading' status *)
  match insert_fault (sign_insert_err env) mediaID st with
  | Some e =>
      (Failed Internal "failed to create media record", st,
       [EfPresignedPutObject (sign_bucket env) s3Key 15;
        EfLog Error "failed to create media record" [("error", e)]])
  | None =>
      (Done {| signed_UploadURL := presignedURL; signed_S3Key := s3Key;
               signed_MediaID := mediaID |},
       on_media (insert mediaID (uploading user s3Key)) st,
       [EfPresignedPutObject (sign_bucket env) s3Key 15])
  end end end.

(** [ConfirmUploadRequest] *)
Record ConfirmUploadRequest : Type := {
  req_MediaID : string;
  req_Title : string;
  req_SizeBytes : Z
}.

(** [ConfirmUploadResponse] *)
Record ConfirmUploadResponse : Type := {
  confirmed_MediaID : string;
  confirmed_Status : string
}.

(** The calls of [ConfirmUpload]: the select, the update, the publish. *)
Record ConfirmEnv : Type := {
  confirm_select_err : error;
  confirm_update_err : error;
  confirm_publish_err : error
}.

(** [UPDATE media SET status = 'queued',
     title = COALESCE(NULLIF($2, ''), title),
     size_bytes = COALESCE(NULLIF($3, 0), size_bytes)] on the columns of
    [MediaRow]; [title] is not one of them. *)
Definition set_queued (size : Z) (r : MediaRow) : MediaRow :=
  {| owner_id := owner_id r; s3_key_original := s3_key_original r;
     s3_key_processed := s3_key_processed r;
     size_bytes := if Z.eqb size 0 then size_bytes r else Some size;
     duration_seconds := duration_seconds r; status := "queued" |}.

(** [ConfirmUpload], for the authenticated user [user] (the [UserID] of
    [auth.Data()]). *)
Definition ConfirmUpload (env : ConfirmEnv) (user : Z)
    (req : ConfirmUploadRequest) (st : Store)
    : api_result ConfirmUploadResponse * Store * list MediaEffect :=
  if String.eqb (req_MediaID req) "" then
    (Failed InvalidArgument "media_id is required", st, [])
  else
  (* Verify ownership and get S3 key *)
  match value (QueryRow (SelectMedia (req_MediaID req))
                 (confirm_select_err env) (select_media (req_MediaID req)) st)
  with
  | Err _ => (Failed NotFound "media not found", st, [])
  | Ok row =>
  let s3Key := s3_key_original row in
  let ownerID := owner_id row in
  if negb (Z.eqb ownerID user) then
    (Failed PermissionDenied "not authorized", st, [])
  else
  (* Update status to 'queued' and optionally update title/size *)
  match confirm_update_err env with
  | Some e =>
      (Failed Internal "failed to update media", st,
       [EfLog Error "failed to update media status" [("error", e)]])
  | None =>
  let st' := on_media (alter (set_queued (req_SizeBytes req))
                         (req_MediaID req)) st in
  (* Publish event to processing topic *)
  let ev := {| MediaID := req_MediaID req; S3Key := s3Key;
               OwnerID := ownerID |} in
  (Done {| confirmed_MediaID := req_MediaID req;
           confirmed_Status := "queued" |},
   st',
   EfPublish ev (confirm_publish_err env) ::
   match confirm_publish_err env with
   | Some e => [EfLog Error "failed to publish media uploaded event"
                  [("error", e)]]
   | None => []
   end)
  end end.

(** The calls of [DeleteMedia]: the select, [getMinioClient()], the delete;
    and [getS3Bucket()]. *)
Record DeleteEnv : Type := {
  delete_select_err : error;
  delete_minio_err : error;
  delete_exec_err : error;
  delete_bucket : string
}.

(** [DeleteMedia], for the authenticated user [user].  The response is
    [DeleteMediaResponse{Success: true}]; the rows of [media_tags] that the
    delete cascades to are outside the columns modelled. *)
Definition DeleteMedia (env : DeleteEnv) (user : Z) (id : string) (st : Store)
    : api_result bool * Store * list MediaEffect :=
  (* Verify ownership and get S3 keys *)
  match value (QueryRow (SelectMedia id) (delete_select_err env)
                 (select_media id) st)
  with
  | Err _ => (Failed NotFound "media not found", st, [])
  | Ok row =>
  let ownerID := owner_id row in
  let s3KeyOriginal := s3_key_original row in
  let s3KeyProcessed := default "" (s3_key_processed row) in
  if negb (Z.eqb ownerID user) then
    (Failed PermissionDenied "not authorized", st, [])
  else
  (* Delete from S3 *)
  let removed :=
    match delete_minio_err env with
    | None =>
        EfRemoveObject (delete_bucket env) s3KeyOriginal ::
        (if negb (String.eqb s3KeyProcessed "")
         then [EfRemoveObject (delete_bucket env) s3KeyProcessed]
         else [])
    | Some _ => []
    end in
  (* Delete from database *)
  match delete_exec_err env with
  | Some _ => (Failed Internal "failed to delete media", st, removed)
  | None => (Done true, on_media (delete id) st, removed)
  end
  end.

(** ** More of what is said about runs *)

(** The processed key of a row as the queries of the media service read
    it, [COALESCE(s3_key_processed, '')]: empty for NULL. *)
Definition processed_key (r : MediaRow) : string :=
  default "" (s3_key_processed r).

(** The statuses the [CHECK] constraint of [media.status] admits, and those
    of [processing_jobs.status]. *)
Definition media_statuses : list string :=
  ["uploading"; "queued"; "processing"; "ready"; "failed"].

Definition job_statuses : list string :=
  ["pending"; "processing"; "completed"; "failed"].

(** [checked st]: every row of [st] passes the [CHECK] of its table. *)
Definition checked (st : Store) : Prop :=
  map_Forall (λ _ r, status r ∈ media_statuses) (media st) ∧
  Forall (λ j, job_status j ∈ job_statuses) (processing_jobs st).

(** [stmt_checked s]: the status a statement writes passes the [CHECK]. *)
Definition stmt_checked (s : Stmt) : Prop :=
  match s with
  | UpdateMediaStatus x _ => x ∈ media_statuses
  | _ => True
  end.

#[global] Instance checked_dec st : Decision (checked st).
Proof. unfold checked. apply _. Defined.

Definition is_RemoveAll (ev : Event) : bool :=
  match ev with
  | EvRemoveAll _ => true
  | _ => false
  end.

(** [stmt_on id s]: a statement on the media table is on the row [id]. *)
Definition stmt_on (id : string) (s : Stmt) : Prop :=
  match s with
  | UpdateMediaStatus _ m | UpdateMediaReady m _ | UpdateMediaDuration m _
  | UpdateMediaSize m _ => m = id
  | _ => True
  end.

(** [same_origin r r']: the owner and the original key of [r'] are those of
    [r]. *)
Definition same_origin (r r' : MediaRow) : Prop :=
  owner_id r' = owner_id r ∧ s3_key_original r' = s3_key_original r.

(** [only_row id st s]: the media table of [s] has the rows of [st]; the
    rows other than [id] are as they were, and the row [id] has kept its
    owner and its original key. *)
Definition only_row (id : string) (st s : Store) : Prop :=
  (∀ k, k ≠ id → media s !! k = media st !! k) ∧
  option_Forall2 same_origin (media st !! id) (media s !! id).

(** [same_job j j']: [j'] is the job [j], possibly closed. *)
Definition same_job (j j' : JobRow) : Prop :=
  job_id j' = job_id j ∧ job_media_id j' = job_media_id j ∧
  created_at j' = created_at j ∧ started_at j' = started_at j.

(** [jobs_kept id st s]: every job row of [st] is still there in [s], at
    its place; a row whose id is not [id] is as it was. *)
Definition jobs_kept (id : string) (st s : Store) : Prop :=
  ∀ i j, processing_jobs st !! i = Some j →
    ∃ j', processing_jobs s !! i = Some j' ∧ same_job j j' ∧
          (job_id j ≠ id → j' = j).

(** [job_stmt_on id s]: an update of the jobs table is of the row [id]. *)
Definition job_stmt_on (id : string) (s : Stmt) : Prop :=
  match s with
  | UpdateJobFailed i _ _ | UpdateJobCompleted i _ => i = id
  | _ => True
  end.

Definition response {A} (r : A * Store * list MediaEffect) : A := r.1.1.

Definition store_after {A} (r : A * Store * list MediaEffect) : Store :=
  r.1.2.

Definition effects_of {A} (r : A * Store * list MediaEffect)
    : list MediaEffect := r.2.

(** ** More concrete instances *)

Definition with_set_ready_err (x : error) (env : Env) : Env :=
  {| S3Bucket := S3Bucket env;
     new_job_id := new_job_id env; insert_job_now := insert_job_now env;
     insert_job_err := insert_job_err env;
     set_processing_err := set_processing_err env;
     set_failed_err := set_failed_err env;
     fail_job_now := fail_job_now env; fail_job_err := fail_job_err env;
     set_ready_err := x;
     complete_job_now := complete_job_now env;
     complete_job_err := complete_job_err env;
     minio_new := minio_new env; mkdir_temp := mkdir_temp env;
     get_object := get_object env; os_create := os_create env;
     io_copy := io_copy env; ffmpeg := ffmpeg env; ffprobe := ffprobe env;
     set_duration_err := set_duration_err env; os_open := os_open env;
     file_stat := file_stat env; put_object := put_object env;
     set_size_err := set_size_err env |}.

Module MediaFixture.
Import Fixture.

(** The database is away when the status is to be set to 'ready'. *)
Definition env_ready_fails : Env :=
  with_set_ready_err (Some "connection refused") env_ok.

(** A third attempt, later than the two of [store_two_jobs]. *)
Definition env_third : Env := with_new_job "job-3" 300 env_ok.

Definition sign_ok : SignEnv :=
  {| sign_uuid := "m3"; sign_minio_err := None;
     sign_bucket := "media-vault";
     sign_presigned := Ok "http://localhost:9000/media-vault/put";
     sign_insert_err := None |}.

Definition holiday : SignUploadRequest :=
  {| req_Filename := "holiday.MP4"; req_MimeType := "video/mp4" |}.

Definition confirm_ok : ConfirmEnv :=
  {| confirm_select_err := None; confirm_update_err := None;
     confirm_publish_err := None |}.

(** The topic is away. *)
Definition confirm_unpublished : ConfirmEnv :=
  {| confirm_select_err := None; confirm_update_err := None;
     confirm_publish_err := Some "topic unavailable" |}.

Definition confirm_clip : ConfirmUploadRequest :=
  {| req_MediaID := "m1"; req_Title := ""; req_SizeBytes := 5000 |}.

Definition delete_ok : DeleteEnv :=
  {| delete_select_err := None; delete_minio_err := None;
     delete_exec_err := None; delete_bucket := "media-vault" |}.

(** The delete of the row is rejected. *)
Definition delete_rejected : DeleteEnv :=
  {| delete_select_err := None; delete_minio_err := None;
     delete_exec_err := Some "connection refused";
     delete_bucket := "media-vault" |}.

End MediaFixture.

(** ** Rules for runs *)

Ltac unfold_m :=
  unfold defer, call, emit, Exec, QueryRow, mbind, M_bind, bind, mret, M_ret,
    ret, value, final, events in *.

Lemma post_ret {A} (a : A) st Q : Q a st [] → post (ret a) st Q.
Proof. done. Qed.

Lemma post_mret {A} (a : A) st Q : Q a st [] → post (mret a) st Q.
Proof. done. Qed.

Lemma post_call {A} e (a : A) st Q : Q a st [e] → post (call e a) st Q.
Proof. done. Qed.

Lemma post_emit e st Q : Q tt st [e] → post (emit e) st Q.
Proof. done. Qed.

Lemma post_Exec s fault st Q :
  (∀ e, fault = Some e → Q (Some e) st [EvSql s (Some e)]) →
  (fault = None → Q None (apply_stmt s st) [EvSql s None]) →
  post (Exec s fault) st Q.
Proof.
  intros Hsome Hnone. unfold post, Exec.
  destruct fault; [by apply Hsome|by apply Hnone].
Qed.

Lemma post_bind {A B} (m : M A) (f : A → M B) st Q :
  post m st (λ a st1 t1, post (f a) st1 (λ b st2 t2, Q b st2 (t1 ++ t2))) →
  post (m ≫= f) st Q.
Proof.
  unfold post, mbind, M_bind, bind, value, final, events.
  destruct (m st) as [[a st1] t1]. simpl.
  destruct (f a st1) as [[b st2] t2]. done.
Qed.

Lemma post_defer {A} (c : M unit) (m : M A) st Q :
  post m st (λ a st1 t1, post c st1 (λ _ st2 t2, Q a st2 (t1 ++ t2))) →
  post (defer c m) st Q.
Proof.
  intros Hm. unfold defer. apply post_bind. unfold post in *.
  apply post_bind. unfold post in *.
  destruct (m st) as [[a st1] t1]. simpl in *.
  destruct (c st1) as [[[] st2] t2]. simpl in *.
  by rewrite app_nil_r.
Qed.

Lemma post_events {A} (m : M A) st (P : list Event → Prop) :
  post m st (λ _ _ t, P t) → P (events (m st)).
Proof. done. Qed.

(** One step of a run: a rule of the monad, or a case distinction on what
    the program inspects. *)
Ltac post_step :=
  lazymatch goal with
  | |- post (ret _) _ _ => apply post_ret
  | |- post (mret _) _ _ => apply post_mret
  | |- post (call _ _) _ _ => apply post_call
  | |- post (emit _) _ _ => apply post_emit
  | |- post (Exec _ _) _ _ => apply post_Exec; [intros ? ?|intros ?]
  | |- post (defer _ _) _ _ => apply post_defer
  | |- post (_ ≫= _) _ _ => apply post_bind
  | |- post (match ?x with _ => _ end) _ _ => destruct x eqn:?
  | |- post (let _ := _ in _) _ _ => cbv zeta
  | |- post ((λ _, _) _) _ _ => cbv beta
  end; cbn beta iota; simplify_eq.

Lemma blind_ret {A} (a : A) : blind (ret a).
Proof. done. Qed.

Lemma blind_mret {A} (a : A) : blind (mret a).
Proof. done. Qed.

Lemma blind_call {A} e (a : A) : blind (call e a).
Proof. done. Qed.

Lemma blind_emit e : blind (emit e).
Proof. done. Qed.

Lemma blind_Exec s fault : blind (Exec s fault).
Proof. intros st st'. unfold Exec. by destruct fault. Qed.

Lemma blind_bind {A B} (m : M A) (f : A → M B) :
  blind m → (∀ a, blind (f a)) → blind (m ≫= f).
Proof.
  intros Hm Hf st st'. specialize (Hm st st').
  unfold mbind, M_bind, bind, value, events in *.
  destruct (m st) as [[a st1] t1], (m st') as [[a' st1'] t1']. simpl in Hm.
  destruct Hm as [-> ->]. specialize (Hf a' st1 st1').
  destruct (f a' st1) as [[b st2] t2], (f a' st1') as [[b' st2'] t2'].
  unfold value, events in Hf. simpl in *. destruct Hf as [-> ->]. done.
Qed.

Lemma blind_defer {A} c (m : M A) : blind c → blind m → blind (defer c m).
Proof.
  intros Hc Hm. unfold defer. apply blind_bind; [done|]. intros a.
  apply blind_bind; [done|]. intros _. apply blind_mret.
Qed.

Ltac blind_step :=
  lazymatch goal with
  | |- blind (ret _) => apply blind_ret
  | |- blind (mret _) => apply blind_mret
  | |- blind (call _ _) => apply blind_call
  | |- blind (emit _) => apply blind_emit
  | |- blind (Exec _ _) => apply blind_Exec
  | |- blind (defer _ _) => apply blind_defer
  | |- blind (_ ≫= _) => apply blind_bind; [|intros ?]
  | |- blind (match ?x with _ => _ end) => destruct x
  | |- blind (let _ := _ in _) => cbv zeta
  end.

Lemma sim_ret {A} (R : A → A → Prop) a a' : R a a' → sim R (ret a) (ret a').
Proof. by intros ? ? ?. Qed.

Lemma sim_bind {A B} (R : A → A → Prop) (Q : B → B → Prop)
    (m m' : M A) (f f' : A → M B) :
  sim R m m' → (∀ a a', R a a' → sim Q (f a) (f' a')) →
  sim Q (m ≫= f) (m' ≫= f').
Proof.
  intros Hm Hf st st'. specialize (Hm st st').
  unfold mbind, M_bind, bind, value in *.
  destruct (m st) as [[a st1] t1], (m' st') as [[a' st1'] t1']. simpl in Hm.
  specialize (Hf a a' Hm st1 st1'). unfold value in Hf.
  destruct (f a st1) as [[b st2] t2], (f' a' st1') as [[b' st2'] t2'].
  done.
Qed.

Lemma sim_defer {A} (R : A → A → Prop) c c' (m m' : M A) :
  sim R m m' → sim R (defer c m) (defer c' m').
Proof.
  intros Hm. unfold defer. eapply sim_bind; [done|]. intros a a' Ha.
  apply (sim_bind (λ _ _, True)); [done|]. intros _ _ _. by apply sim_ret.
Qed.

Lemma sim_blind {A} (m : M A) : blind m → sim eq m m.
Proof. intros Hm st st'. apply Hm. Qed.

Lemma sim_any {A} (m m' : M A) : sim (λ _ _, True) m m'.
Proof. done. Qed.

(** The equations the run has collected about the environment are used in
    the goal. *)
Ltac use_env :=
  repeat match goal with
  | H : ?f ?e = _ |- context [?f ?e] => rewrite H
  end.

(** An event is found in a trace that is written out. *)
Ltac in_trace :=
  use_env; cbn [app];
  repeat first [ apply list_elem_of_here
               | (apply elem_of_app; left; assumption)
               | apply list_elem_of_further
               | (apply elem_of_app; right) ].

(** All the places of a written-out trace an event can be at. *)
Ltac split_in Hin :=
  cbn [app] in Hin;
  repeat first
    [ apply elem_of_cons in Hin as [Hin|Hin]; [try discriminate|]
    | apply elem_of_app in Hin as [Hin|Hin]
    | (apply elem_of_nil in Hin; contradiction) ].

Ltac sim_step :=
  lazymatch goal with
  | |- sim _ (ret _) (ret _) => by apply sim_ret
  | |- sim _ (mret _) (mret _) => by apply sim_ret
  | |- sim _ (defer _ _) (defer _ _) => apply sim_defer
  | |- sim _ (?m ≫= _) (?m ≫= _) =>
      apply (sim_bind eq); [apply sim_blind|intros ? ? <-]
  | |- sim _ (_ ≫= _) (_ ≫= _) =>
      apply (sim_bind (λ _ _, True)); [apply sim_any|intros ? ? _]
  | |- sim _ (match ?x with _ => _ end) (match ?x with _ => _ end) =>
      destruct x
  | |- sim _ (let _ := _ in _) _ => cbv zeta
  | |- blind _ => blind_step
  end.

(** ** Properties *)

Section Properties.
Context {golib : GoLib}.

(** *** The handler never reads the store *)

Lemma blind_getVideoDuration env path : blind (getVideoDuration env path).
Proof. unfold getVideoDuration. repeat blind_step. Qed.

Lemma blind_transcodeVideo env id key : blind (transcodeVideo env id key).
Proof.
  unfold transcodeVideo.
  repeat first [apply blind_getVideoDuration | blind_step].
Qed.

Lemma blind_processMedia env msg : blind (processMedia env msg).
Proof.
  unfold processMedia.
  repeat first [apply blind_transcodeVideo | blind_step].
Qed.

(** *** What the transcode sequence leaves alone *)

Lemma frame_refl st : frame st st.
Proof.
  split; [done|]. intros k. destruct (media st !! k); by constructor.
Qed.

Lemma frame_alter st st' f id :
  (∀ r, keeps r (f r)) → frame st st' →
  frame st (on_media (alter f id) st').
Proof.
  intros Hf [Hj Hm]. split; [done|]. intros k. simpl.
  specialize (Hm k). rewrite lookup_alter. case_decide as Hk.
  - subst k. destruct Hm as [r r' [Hs Hp]|]; constructor.
    destruct (Hf r') as [Hs' Hp']. split; congruence.
  - done.
Qed.

Lemma frame_duration st st' id d :
  frame st st' → frame st (apply_stmt (UpdateMediaDuration id d) st').
Proof. apply frame_alter. by intros r. Qed.

Lemma frame_size st st' id n :
  frame st st' → frame st (apply_stmt (UpdateMediaSize id n) st').
Proof. apply frame_alter. by intros r. Qed.

Lemma getVideoDuration_store env path st :
  final (getVideoDuration env path st) = st.
Proof.
  unfold getVideoDuration. unfold_m. simpl.
  by destruct (ffprobe env) as [out [e|]].
Qed.

Lemma post_getVideoDuration env path st Q :
  (∀ d t, Q d st t) → post (getVideoDuration env path) st Q.
Proof.
  intros HQ. unfold post. rewrite getVideoDuration_store. apply HQ.
Qed.

(** The transcode sequence writes the columns [duration_seconds] and
    [size_bytes] only; the error it returns comes with an empty key and a
    text that is not empty; the empty key without an error is returned for
    a key that is not a video's, with the store untouched. *)
Lemma transcodeVideo_facts env id key st :
  post (transcodeVideo env id key) st (λ v s _,
    frame st s ∧
    (∀ e, v.2 = Some e → v.1 = "" ∧ e ≠ "") ∧
    (v = ("", None) → s = st ∧ isVideoFile key = false)).
Proof.
  unfold transcodeVideo.
  repeat first [apply post_getVideoDuration; intros ? ? | post_step].
  all: split; [eauto using frame_refl, frame_duration, frame_size|].
  all: split; intros; simplify_eq/=; try done.
  split; [done|]. by apply negb_true_iff.
Qed.

Lemma post_transcodeVideo env id key st st0 Q :
  (∀ v s t,
     v = value (transcodeVideo env id key st0) →
     t = events (transcodeVideo env id key st0) →
     frame st s →
     (∀ e, v.2 = Some e → v.1 = "" ∧ e ≠ "") →
     (v = ("", None) → s = st ∧ isVideoFile key = false) →
     Q v s t) →
  post (transcodeVideo env id key) st Q.
Proof.
  intros HQ. pose proof (transcodeVideo_facts env id key st) as (Hf & He & Hk).
  destruct (blind_transcodeVideo env id key st st0) as [Hv Ht].
  by apply HQ.
Qed.

Lemma has_row_apply id s st : has_row id st → has_row id (apply_stmt s st).
Proof.
  unfold has_row. intros [r Hr].
  destruct s; simpl; try (by eexists);
    rewrite lookup_alter; case_decide; subst; rewrite ?Hr; by eexists.
Qed.

Lemma has_row_frame id st s : frame st s → has_row id st → has_row id s.
Proof.
  unfold has_row. intros [_ Hm] [r Hr]. specialize (Hm id).
  rewrite Hr in Hm. inversion Hm. by eexists.
Qed.

Lemma status_after_update id x st :
  has_row id st →
  status <$> media (apply_stmt (UpdateMediaStatus x id) st) !! id = Some x.
Proof.
  intros [r Hr]. simpl. rewrite lookup_alter, decide_True, Hr by done. done.
Qed.

Lemma ready_after_update id key st :
  has_row id st →
  let s := apply_stmt (UpdateMediaReady id key) st in
  status <$> media s !! id = Some "ready" ∧
  s3_key_processed <$> media s !! id = Some (Some key).
Proof.
  intros [r Hr]. simpl. rewrite lookup_alter, decide_True, Hr by done. done.
Qed.

Lemma update_job_last id f jobs j :
  job_id j = id → f j ∈ update_job id f (jobs ++ [j]).
Proof.
  intros Hid. unfold update_job. rewrite fmap_app. apply elem_of_app. right.
  simpl. rewrite Hid, String.eqb_refl. apply list_elem_of_here.
Qed.

(** The run of the handler once the status is 'processing', in terms of what
    the transcode sequence returns. *)
Lemma processMedia_run env msg st :
  set_processing_err env = None →
  post (processMedia env msg) st
    (handled env msg st
       (value (transcodeVideo env (MediaID msg) (S3Key msg) st))
       (events (transcodeVideo env (MediaID msg) (S3Key msg) st))).
Proof.
  intros Hproc. unfold processMedia, handled.
  repeat first [apply (post_transcodeVideo _ _ _ _ st); intros | post_step].
  all: match goal with
       | Hv : _ = value (transcodeVideo _ _ _ _) |- _ =>
           rewrite <- Hv; cbn [fst snd]
       end.
  all: split; [intros ev Hev; by in_trace|].
  all: split; [intros name args Hin; split_in Hin; done|].
  all: split; [by in_trace|].
  (* the transcode sequence failed *)
  all: try match goal with
       | He : ∀ _, (_, Some ?e).2 = _ → _ |- _ =>
           destruct (He e eq_refl) as [_ Hne]; clear He;
           split; [done|]; split; [done|]; split; [by in_trace|];
           (split; [intros ? Hrow; simplify_eq|intros ? Hid; simplify_eq])
       end.
  all: try (apply status_after_update;
            eauto using has_row_frame, has_row_apply).
  all: try (apply negb_false_iff, String.eqb_eq in Heqb; done).
  all: try (split; [by in_trace|intros ?];
       first
         [ congruence
         | match goal with Hf : frame _ _ |- _ => destruct Hf as [Hjobs _] end;
           eexists; split;
           [simpl; rewrite Hjobs; simpl; by apply update_job_last|done] ]).
  (* the transcode sequence succeeded *)
  all: split; [by use_env|]; split; [by in_trace|].
  all: intros ?; simplify_eq.
  all: (split; [intros Hrow|intros -> row Hrow]).
  all: try (apply ready_after_update;
            eauto using has_row_frame, has_row_apply).
  all: match goal with
       | Hk : ("", None) = ("", None) → _ |- _ =>
           destruct (Hk eq_refl) as [-> _]
       end.
  all: simpl; rewrite !lookup_alter, !decide_True, Hrow by done; done.
Qed.

Lemma ext_in_spec ext exts : ext_in ext exts = true ↔ ext ∈ exts.
Proof.
  induction exts as [|e exts IH]; simpl.
  - rewrite elem_of_nil. split; [discriminate|tauto].
  - rewrite elem_of_cons. destruct (String.eqb_spec ext e); [tauto|].
    rewrite IH. tauto.
Qed.

Lemma isVideoFile_false key :
  isVideoFile key = false ↔ ToLower (filepath.Ext key) ∉ videoExts.
Proof.
  unfold isVideoFile. rewrite <- ext_in_spec.
  destruct (ext_in _ _); split; congruence.
Qed.

Lemma staging_fields env d :
  staging env = Some d →
  minio_new env = None ∧ mkdir_temp env = Ok d ∧ get_object env = None ∧
  os_create env = None ∧ io_copy env = None.
Proof.
  unfold staging. intros Hs. repeat case_match; by simplify_eq.
Qed.

Lemma post_eq {A} (m : M A) st a s t :
  post m st (λ a' s' t', a' = a ∧ s' = s ∧ t' = t) → m st = (a, s, t).
Proof.
  unfold post, value, final, events. destruct (m st) as [[a' s'] t'].
  simpl. by intros (-> & -> & ->).
Qed.

Ltac run_transcode :=
  apply post_eq; unfold transcodeVideo, getVideoDuration;
  repeat (post_step; try congruence;
          try match goal with
              | Hv : isVideoFile _ = _, Hb : negb (isVideoFile _) = _ |- _ =>
                  rewrite Hv in Hb; discriminate
              end).

(** The run of the transcode sequence on a key that is not a video's. *)
Lemma transcodeVideo_non_video env id key st d :
  staging env = Some d → isVideoFile key = false →
  transcodeVideo env id key st =
    (("", None), st,
     [EvMinioNew; EvMkdirTemp; EvGetObject (S3Bucket env) key;
      EvCreate (filepath.Join d ("input" +:+ filepath.Ext key)); EvCopy;
      EvClose (filepath.Join d ("input" +:+ filepath.Ext key));
      EvLog Info "file is not a video, skipping transcoding"
        [("s3_key", key)];
      EvClose "object"; EvRemoveAll d]).
Proof.
  intros (Hc & Hd & Hg & Hf & Hio)%staging_fields Hv.
  run_transcode. all: done.
Qed.

(** The run of the transcode sequence when the encoder fails. *)
Lemma transcodeVideo_encoder_failure env id key st d out e :
  staging env = Some d → isVideoFile key = true →
  ffmpeg env = (out, Some e) →
  transcodeVideo env id key st =
    (("", Some (Errorf "ffmpeg transcoding failed" e)), st,
     [EvMinioNew; EvMkdirTemp; EvGetObject (S3Bucket env) key;
      EvCreate (filepath.Join d ("input" +:+ filepath.Ext key)); EvCopy;
      EvClose (filepath.Join d ("input" +:+ filepath.Ext key));
      EvCommand "ffmpeg"
        ["-i"; filepath.Join d ("input" +:+ filepath.Ext key); "-c:v"; "libx265"; "-crf"; "28";
         "-preset"; "fast"; "-tag:v"; "hvc1"; "-c:a"; "aac"; "-movflags";
         "+faststart"; "-y"; filepath.Join d "output.mp4"];
      EvLog Error "ffmpeg failed" [("error", e); ("output", out)];
      EvClose "object"; EvRemoveAll d]).
Proof.
  intros (Hc & Hd & Hg & Hf & Hio)%staging_fields Hv Hff.
  run_transcode. all: done.
Qed.

(** The run of the transcode sequence when the object cannot be requested. *)
Lemma transcodeVideo_get_failure env id key st d e :
  minio_new env = None → mkdir_temp env = Ok d → get_object env = Some e →
  transcodeVideo env id key st =
    (("", Some (Errorf "failed to get object from S3" e)), st,
     [EvMinioNew; EvMkdirTemp; EvGetObject (S3Bucket env) key;
      EvRemoveAll d]).
Proof. intros Hc Hd Hg. run_transcode. all: done. Qed.

(** The run of the transcode sequence when the object's bytes cannot be
    copied into the local file. *)
Lemma transcodeVideo_copy_failure env id key st d e :
  minio_new env = None → mkdir_temp env = Ok d → get_object env = None →
  os_create env = None → io_copy env = Some e →
  transcodeVideo env id key st =
    (("", Some (Errorf "failed to download file" e)), st,
     [EvMinioNew; EvMkdirTemp; EvGetObject (S3Bucket env) key;
      EvCreate (filepath.Join d ("input" +:+ filepath.Ext key)); EvCopy;
      EvClose (filepath.Join d ("input" +:+ filepath.Ext key));
      EvClose "object"; EvRemoveAll d]).
Proof. intros Hc Hd Hg Hf Hio. run_transcode. all: done. Qed.

(** [processMedia_run] with the run of the transcode sequence given. *)
Lemma processMedia_after env msg st tv s' te :
  set_processing_err env = None →
  transcodeVideo env (MediaID msg) (S3Key msg) st = (tv, s', te) →
  post (processMedia env msg) st (handled env msg st tv te).
Proof.
  intros Hproc Heq. pose proof (processMedia_run env msg st Hproc) as Hrun.
  unfold post in *. by rewrite Heq in Hrun.
Qed.

(** C5.  When the transcode sequence returns an error, the handler returns
    that error, whose text is not empty; it issues the update of the media
    status to 'failed', and the row, if there is one and the database accepts
    the update, has that status afterwards; when a job row was created (the
    insert succeeded and returned the row's id, which is never empty), it
    issues the update of that job, and the job, if the database accepts the
    update, has status 'failed', the error's text as its message and its
    completion time set. *)
Theorem C5_transcode_error_marks_failed env msg st key e :
  set_processing_err env = None →
  value (transcodeVideo env (MediaID msg) (S3Key msg) st) = (key, Some e) →
  post (processMedia env msg) st (λ v s t,
    v = Some e ∧ e ≠ "" ∧
    EvSql (UpdateMediaStatus "failed" (MediaID msg)) (set_failed_err env) ∈ t ∧
    (set_failed_err env = None → has_row (MediaID msg) st →
       status <$> media s !! MediaID msg = Some "failed") ∧
    (insert_job_err env = None → new_job_id env ≠ "" →
       EvSql (UpdateJobFailed (new_job_id env) e (fail_job_now env))
             (fail_job_err env) ∈ t ∧
       (fail_job_err env = None →
          ∃ j, j ∈ processing_jobs s ∧ job_id j = new_job_id env ∧
               job_media_id j = MediaID msg ∧ job_status j = "failed" ∧
               error_message j = Some e ∧
               completed_at j = Some (fail_job_now env)))).
Proof.
  intros Hproc Htr. pose proof (processMedia_run env msg st Hproc) as Hrun.
  unfold post in *. rewrite Htr in Hrun. apply Hrun.
Qed.

(** C1, as the code has it.  The handler makes no check of the stored
    status: what it returns and what it does outside the process are the same
    from every store, and the update to 'processing' carries no condition.
    The status a run leaves is decided by that run alone, whatever the status
    was before: 'failed' when its transcode sequence fails, 'ready' when it
    succeeds (the database accepting the update in each case). *)
Theorem C1_status_update_is_unconditional env msg st :
  has_row (MediaID msg) st →
  set_processing_err env = None →
  (∀ st', value (processMedia env msg st') = value (processMedia env msg st) ∧
          events (processMedia env msg st') = events (processMedia env msg st)) ∧
  post (processMedia env msg) st (λ v s t,
    EvSql (UpdateMediaStatus "processing" (MediaID msg)) None ∈ t ∧
    (∀ key e,
       value (transcodeVideo env (MediaID msg) (S3Key msg) st) = (key, Some e) →
       set_failed_err env = None →
       v = Some e ∧ status <$> media s !! MediaID msg = Some "failed") ∧
    (∀ key,
       value (transcodeVideo env (MediaID msg) (S3Key msg) st) = (key, None) →
       set_ready_err env = None →
       v = None ∧ status <$> media s !! MediaID msg = Some "ready")).
Proof.
  intros Hrow Hproc. split; [intros st'; apply blind_processMedia|].
  pose proof (processMedia_run env msg st Hproc) as Hrun.
  unfold post in *. destruct Hrun as (_ & _ & Hp & Hrun).
  split; [done|]. split.
  - intros key e Htr Hf. rewrite Htr in Hrun.
    destruct Hrun as (-> & _ & _ & Hs & _). auto.
  - intros key Htr Hr. rewrite Htr in Hrun.
    destruct Hrun as (-> & _ & Hs). split; [done|]. by apply Hs.
Qed.

(** C2, as the code has it.  When the encoder fails, the handler returns
    an error whose text is the fixed prefix followed by the text of the
    encoder's exit error; the encoder's combined output goes to the error log
    and nowhere else; the text stored as the job's message is the text of the
    returned error. *)
Theorem C2_encoder_failure_text env msg st d out e :
  set_processing_err env = None →
  staging env = Some d →
  isVideoFile (S3Key msg) = true →
  ffmpeg env = (out, Some e) →
  post (processMedia env msg) st (λ v s t,
    v = Some (Errorf "ffmpeg transcoding failed" e) ∧
    EvLog Error "ffmpeg failed" [("error", e); ("output", out)] ∈ t ∧
    (set_failed_err env = None → has_row (MediaID msg) st →
       status <$> media s !! MediaID msg = Some "failed") ∧
    (insert_job_err env = None → new_job_id env ≠ "" →
     fail_job_err env = None →
       ∃ j, j ∈ processing_jobs s ∧ job_id j = new_job_id env ∧
            job_status j = "failed" ∧
            error_message j = Some (Errorf "ffmpeg transcoding failed" e))).
Proof.
  intros Hproc Hst Hv Hff.
  pose proof (transcodeVideo_encoder_failure env (MediaID msg) (S3Key msg) st
                d out e Hst Hv Hff) as Heq.
  pose proof (processMedia_after env msg st _ _ _ Hproc Heq) as Hrun.
  unfold post in *. simpl in Hrun.
  destruct Hrun as (Hte & _ & _ & -> & _ & _ & Hs & Hj).
  split; [done|]. split; [apply Hte; by in_trace|]. split; [done|].
  intros Hi Hid Hfj. destruct (Hj Hi Hid) as [_ Hjob].
  destruct (Hjob Hfj) as (j & ? & ? & ? & ? & ? & ?). by exists j.
Qed.

(** C3.  In a run that returns no error and whose transcode sequence
    produced the empty key, the final update sets the status to 'ready' and
    leaves the processed key of the row empty: the key, as every query reads
    it, is empty afterwards, and for a row whose processed key was empty it
    is what it was.  The one statement of the success path carries the empty
    key here, so that a NULL in the column becomes the empty string; nothing
    else of the row is changed. *)
Theorem C3_processed_key_remains_empty env msg st row :
  media st !! MediaID msg = Some row →
  value (transcodeVideo env (MediaID msg) (S3Key msg) st) = ("", None) →
  post (processMedia env msg) st (λ v s t,
    v = None →
    EvSql (UpdateMediaReady (MediaID msg) "") None ∈ t ∧
    media s !! MediaID msg = Some (set_ready "" row) ∧
    status <$> media s !! MediaID msg = Some "ready" ∧
    s3_key_processed <$> media s !! MediaID msg = Some (Some "") ∧
    processed_key <$> media s !! MediaID msg = Some "" ∧
    (processed_key row = "" →
       processed_key <$> media s !! MediaID msg =
       processed_key <$> media st !! MediaID msg)).
Proof.
  intros Hrow Htr. unfold post. intros Hv.
  assert (set_processing_err env = None) as Hproc.
  { revert Hv. unfold processMedia. generalize (transcodeVideo env). intros f.
    unfold_m. destruct (insert_job_err env), (set_processing_err env);
      simpl; done. }
  pose proof (processMedia_run env msg st Hproc) as Hrun.
  unfold post in *. rewrite Htr in Hrun. simpl in Hrun.
  destruct Hrun as (_ & _ & _ & Hr & Hin & Hs).
  rewrite Hv in Hr. rewrite <- Hr in *.
  destruct (Hs eq_refl) as [_ Hs']. specialize (Hs' eq_refl row Hrow).
  rewrite Hs', Hrow. repeat (split; [done|]). simpl. by intros ->.
Qed.

(** C4.  For a key whose lower-cased extension is not in the list of video
    extensions and whose original file has been staged, the transcode
    sequence runs no command, leaves the store as it was and returns the
    empty key with no error; the handler then issues the update that sets the
    status to 'ready' and, when the database accepts it, returns no error and
    the row's status is 'ready'. *)
Theorem C4_non_video_is_not_transcoded env msg st d :
  ToLower (filepath.Ext (S3Key msg)) ∉ videoExts →
  set_processing_err env = None →
  staging env = Some d →
  post (transcodeVideo env (MediaID msg) (S3Key msg)) st (λ v s t,
    v = ("", None) ∧ s = st ∧ ∀ name args, EvCommand name args ∉ t) ∧
  post (processMedia env msg) st (λ v s t,
    (∀ name args, EvCommand name args ∉ t) ∧
    EvSql (UpdateMediaReady (MediaID msg) "") (set_ready_err env) ∈ t ∧
    (set_ready_err env = None →
       v = None ∧
       (has_row (MediaID msg) st →
          status <$> media s !! MediaID msg = Some "ready"))).
Proof.
  intros Hext%isVideoFile_false Hproc Hst.
  pose proof (transcodeVideo_non_video env (MediaID msg) (S3Key msg) st d
                Hst Hext) as Heq.
  pose proof (processMedia_after env msg st _ _ _ Hproc Heq) as Hrun.
  unfold post in *. simpl in Hrun. rewrite Heq.
  assert (∀ name args, EvCommand name args ∉
            events (("", None) : string * error, st,
              [EvMinioNew; EvMkdirTemp;
               EvGetObject (S3Bucket env) (S3Key msg);
               EvCreate (filepath.Join d ("input" +:+ filepath.Ext (S3Key msg)));
               EvCopy;
               EvClose (filepath.Join d ("input" +:+ filepath.Ext (S3Key msg)));
               EvLog Info "file is not a video, skipping transcoding"
                 [("s3_key", S3Key msg)];
               EvClose "object"; EvRemoveAll d])) as Hno.
  { intros name args Hin. unfold events in Hin. split_in Hin. }
  split; [done|].
  destruct Hrun as (_ & Hcmd & _ & Hv & Hin & Hs).
  split; [intros name args Hin'; by apply (Hno name args), Hcmd|].
  split; [done|]. intros Hr. rewrite Hv. split; [done|].
  intros Hrow. by apply Hs.
Qed.

(** *** What a run does not depend on *)

Lemma sim_transcodeVideo_ffprobe env p id key :
  sim eq (transcodeVideo (with_ffprobe p env) id key)
         (transcodeVideo env id key).
Proof.
  unfold transcodeVideo. cbn [with_ffprobe minio_new mkdir_temp get_object
    os_create io_copy ffmpeg set_duration_err os_open file_stat put_object
    set_size_err S3Bucket].
  repeat sim_step.
Qed.

Lemma sim_processMedia_ffprobe env p msg :
  sim eq (processMedia (with_ffprobe p env) msg) (processMedia env msg).
Proof.
  unfold processMedia. cbn [with_ffprobe new_job_id insert_job_now
    insert_job_err set_processing_err set_failed_err fail_job_now
    fail_job_err set_ready_err complete_job_now complete_job_err].
  repeat first
    [ lazymatch goal with
      | |- sim _ (transcodeVideo _ _ _ ≫= _) (transcodeVideo _ _ _ ≫= _) =>
          apply (sim_bind eq);
          [apply sim_transcodeVideo_ffprobe|intros ? ? <-]
      end
    | sim_step ].
Qed.

Lemma sim_processMedia_insert env x msg :
  sim eq (processMedia (with_insert_job_err x env) msg) (processMedia env msg).
Proof.
  unfold processMedia.
  change (transcodeVideo (with_insert_job_err x env))
    with (transcodeVideo env).
  cbn [with_insert_job_err new_job_id insert_job_now
    insert_job_err set_processing_err set_failed_err fail_job_now
    fail_job_err set_ready_err complete_job_now complete_job_err].
  repeat first [apply blind_transcodeVideo | sim_step].
Qed.

(** C6.  When the insert of the job row fails, the failure is logged, the
    update of the status to 'processing' is issued next, and the handler
    returns what it returns when the insert has any other outcome.  When the
    update of the status to 'processing' fails, the handler returns that
    error, the media table is as it was, and the run ends there: the events
    of the run are the opening log line, the insert, its log line if it
    failed, the rejected update and its log line. *)
Theorem C6_insert_failure_continues_status_failure_returns env msg st :
  (∀ e, insert_job_err env = Some e →
     post (processMedia env msg) st (λ v s t,
       EvLog Error "failed to create processing job" [("error", e)] ∈ t ∧
       EvSql (UpdateMediaStatus "processing" (MediaID msg))
             (set_processing_err env) ∈ t ∧
       ∀ x, v = value (processMedia (with_insert_job_err x env) msg st))) ∧
  (∀ e, set_processing_err env = Some e →
     post (processMedia env msg) st (λ v s t,
       v = Some e ∧ media s = media st ∧
       t = [EvLog Info "processing media"
              [("media_id", MediaID msg); ("s3_key", S3Key msg)];
            EvSql (InsertJob (new_job_id env) (MediaID msg)
                     (insert_job_now env)) (insert_job_err env)] ++
           match insert_job_err env with
           | Some e' => [EvLog Error "failed to create processing job"
                           [("error", e')]]
           | None => []
           end ++
           [EvSql (UpdateMediaStatus "processing" (MediaID msg)) (Some e);
            EvLog Error "failed to update media status" [("error", e)]])).
Proof.
  split.
  - intros e Hins. unfold post. split; [|split].
    + apply (post_events (processMedia env msg) st (λ t, _ ∈ t)).
      unfold processMedia.
      repeat first [apply (post_transcodeVideo _ _ _ _ st); intros
                   | post_step]; by in_trace.
    + apply (post_events (processMedia env msg) st (λ t, _ ∈ t)).
      unfold processMedia.
      repeat first [apply (post_transcodeVideo _ _ _ _ st); intros
                   | post_step]; by in_trace.
    + intros x. symmetry. apply sim_processMedia_insert.
  - intros e Hproc. unfold processMedia.
    repeat (post_step; try congruence).
    all: by use_env.
Qed.

(** C8.  The probe returns a number and nothing else, and leaves the store
    alone.  The number is 0 when the probe tool fails and when its output
    does not scan as a number.  What the transcode sequence and the handler
    return does not depend on what the probe tool does. *)
Theorem C8_probe_failure_is_not_an_error env path st :
  post (getVideoDuration env path) st (λ d s t,
    s = st ∧
    (∀ out e, ffprobe env = (out, Some e) → d = 0) ∧
    (∀ out, ffprobe env = (out, None) →
       Sscanf_f (TrimSpace out) = None → d = 0)) ∧
  (∀ p id key,
     value (transcodeVideo (with_ffprobe p env) id key st) =
     value (transcodeVideo env id key st)) ∧
  (∀ p msg,
     value (processMedia (with_ffprobe p env) msg st) =
     value (processMedia env msg st)).
Proof.
  split; [|split].
  - unfold getVideoDuration. repeat post_step.
    + split; [done|]. split; intros; simplify_eq; done.
    + split; [done|]. split; intros; simplify_eq.
      match goal with Hs : Sscanf_f _ = None |- _ => by rewrite Hs end.
  - intros p id key. apply sim_transcodeVideo_ffprobe.
  - intros p msg. apply sim_processMedia_ffprobe.
Qed.

(** C9.  The key is classified after the original file has been fetched:
    on a key that is not a video's, the request for the object, the creation
    of the local file and the copy come before the line that reports the
    skip.  So when the fetch fails for such a key, the transcode sequence
    never gets to the classification, the handler returns the fetch error,
    and it issues the update of the status to 'failed' (after which the row,
    if there is one and the database accepts the update, has that status). *)
Theorem C9_fetch_failure_fails_non_video env msg st d :
  isVideoFile (S3Key msg) = false →
  set_processing_err env = None →
  minio_new env = None →
  mkdir_temp env = Ok d →
  (staging env = Some d →
   events (transcodeVideo env (MediaID msg) (S3Key msg) st) =
     [EvMinioNew; EvMkdirTemp; EvGetObject (S3Bucket env) (S3Key msg);
      EvCreate (filepath.Join d ("input" +:+ filepath.Ext (S3Key msg)));
      EvCopy;
      EvClose (filepath.Join d ("input" +:+ filepath.Ext (S3Key msg)));
      EvLog Info "file is not a video, skipping transcoding"
        [("s3_key", S3Key msg)];
      EvClose "object"; EvRemoveAll d]) ∧
  (∀ e,
     get_object env = Some e ∨
     (get_object env = None ∧ os_create env = None ∧ io_copy env = Some e) →
     (EvGetObject (S3Bucket env) (S3Key msg)
        ∈ events (transcodeVideo env (MediaID msg) (S3Key msg) st) ∧
      EvLog Info "file is not a video, skipping transcoding"
        [("s3_key", S3Key msg)]
        ∉ events (transcodeVideo env (MediaID msg) (S3Key msg) st)) ∧
     post (processMedia env msg) st (λ v s t,
       (v = Some (Errorf "failed to get object from S3" e) ∨
        v = Some (Errorf "failed to download file" e)) ∧
       EvSql (UpdateMediaStatus "failed" (MediaID msg)) (set_failed_err env)
         ∈ t ∧
       (set_failed_err env = None → has_row (MediaID msg) st →
          status <$> media s !! MediaID msg = Some "failed"))).
Proof.
  intros Hv Hproc Hc Hd. split.
  - intros Hst. by rewrite (transcodeVideo_non_video _ _ _ _ d).
  - intros e [Hg|(Hg & Hf & Hio)].
    + pose proof (transcodeVideo_get_failure env (MediaID msg) (S3Key msg)
                    st d e Hc Hd Hg) as Heq.
      pose proof (processMedia_after env msg st _ _ _ Hproc Heq) as Hrun.
      rewrite Heq. unfold post, events in *. simpl in *.
      destruct Hrun as (_ & _ & _ & -> & _ & ? & ? & _).
      split; [split; [by in_trace|intros Hin; split_in Hin]|]. auto.
    + pose proof (transcodeVideo_copy_failure env (MediaID msg) (S3Key msg)
                    st d e Hc Hd Hg Hf Hio) as Heq.
      pose proof (processMedia_after env msg st _ _ _ Hproc Heq) as Hrun.
      rewrite Heq. unfold post, events in *. simpl in *.
      destruct Hrun as (_ & _ & _ & -> & _ & ? & ? & _).
      split; [split; [by in_trace|intros Hin; split_in Hin]|]. auto.
Qed.

Lemma getVideoDuration_events env path st :
  events (getVideoDuration env path st) =
    [EvCommand "ffprobe"
       ["-v"; "error"; "-show_entries"; "format=duration"; "-of";
        "default=noprint_wrappers=1:nokey=1"; path]].
Proof.
  unfold getVideoDuration. unfold_m. simpl.
  by destruct (ffprobe env) as [out [e|]].
Qed.

Lemma post_getVideoDuration_value env path st st0 Q :
  Q (value (getVideoDuration env path st0)) st
    [EvCommand "ffprobe"
       ["-v"; "error"; "-show_entries"; "format=duration"; "-of";
        "default=noprint_wrappers=1:nokey=1"; path]] →
  post (getVideoDuration env path) st Q.
Proof.
  intros HQ. unfold post.
  rewrite getVideoDuration_store, getVideoDuration_events.
  by destruct (blind_getVideoDuration env path st st0) as [-> _].
Qed.

Lemma duration_after_size id n st k :
  duration_seconds <$> media (apply_stmt (UpdateMediaSize id n) st) !! k =
  duration_seconds <$> media st !! k.
Proof.
  simpl. rewrite lookup_alter. case_decide; [subst|done].
  by destruct (media st !! k).
Qed.

Lemma duration_after_duration id d st :
  has_row id st →
  duration_seconds <$> media (apply_stmt (UpdateMediaDuration id d) st) !! id =
  Some (Some d).
Proof.
  intros [r Hr]. simpl. rewrite lookup_alter, decide_True, Hr by done. done.
Qed.

(** C10.  After a successful encode, with [dur] the number the probe
    returns: every update of [duration_seconds] the transcode sequence issues
    is for this media id, carries [dur], and [dur] is strictly positive; when
    [dur] is strictly positive the update is issued, and the row, if there is
    one and the database accepts the update, has [dur] in the column
    afterwards; when [dur] is not, no row's [duration_seconds] is changed. *)
Theorem C10_duration_written_only_when_positive env id key st d out :
  staging env = Some d →
  isVideoFile key = true →
  ffmpeg env = (out, None) →
  let dur := value (getVideoDuration env (filepath.Join d "output.mp4") st) in
  post (transcodeVideo env id key) st (λ _ s t,
    (∀ id' d' o, EvSql (UpdateMediaDuration id' d') o ∈ t →
       id' = id ∧ d' = dur ∧ 0 < dur) ∧
    (0 < dur →
       EvSql (UpdateMediaDuration id dur) (set_duration_err env) ∈ t ∧
       (set_duration_err env = None → has_row id st →
          duration_seconds <$> media s !! id = Some (Some dur))) ∧
    (dur ≤ 0 →
       ∀ k, duration_seconds <$> media s !! k =
            duration_seconds <$> media st !! k)).
Proof.
  intros (Hc & Hd & Hg & Hf & Hio)%staging_fields Hv Hff dur.
  unfold transcodeVideo.
  repeat first
    [ apply (post_getVideoDuration_value _ _ _ st); fold dur
    | post_step; try congruence;
      try match goal with
          | Hb : negb (isVideoFile _) = _ |- _ =>
              rewrite Hv in Hb; discriminate
          end ].
  all: repeat match goal with
       | Hb : (0 <? _) = true |- _ => apply Z.ltb_lt in Hb
       | Hb : (0 <? _) = false |- _ => apply Z.ltb_ge in Hb
       end.
  all: split; [intros id' d' o Hin; split_in Hin; by simplify_eq|].
  all: split; [intros Hpos|intros Hneg; try lia].
  all: try lia.
  all: try (split; [by in_trace|intros ? Hrow; try congruence]).
  all: try (intros k; by rewrite ?duration_after_size).
  all: rewrite ?duration_after_size; by apply duration_after_duration.
Qed.

End Properties.

(** *** The status query *)

Lemma latest_None jobs : latest jobs = None ↔ jobs = [].
Proof.
  split; [|by intros ->]. destruct jobs as [|j rest]; [done|]. simpl.
  destruct (latest rest); [case_match|]; done.
Qed.

Lemma latest_Some jobs j :
  latest jobs = Some j →
  j ∈ jobs ∧ ∀ j', j' ∈ jobs → created_at j' ≤ created_at j.
Proof.
  revert j. induction jobs as [|j0 rest IH]; intros j; simpl; [done|].
  destruct (latest rest) as [k|] eqn:Hk.
  - destruct (IH k eq_refl) as [Hin Hmax].
    destruct (Z.ltb_spec (created_at j0) (created_at k)); intros [= <-].
    + split; [by apply list_elem_of_further|].
      intros j' [->|Hj']%elem_of_cons; [lia|by apply Hmax].
    + split; [apply list_elem_of_here|].
      intros j' [->|Hj']%elem_of_cons; [lia|].
      specialize (Hmax j' Hj'). lia.
  - intros [= <-]. apply latest_None in Hk as ->.
    split; [apply list_elem_of_here|].
    intros j' [->|Hj']%elem_of_cons; [lia|]. by apply elem_of_nil in Hj'.
Qed.

Lemma select_latest_job_None id st :
  select_latest_job id st = None ↔
  ∀ j, j ∈ processing_jobs st → job_media_id j ≠ id.
Proof.
  unfold select_latest_job. rewrite latest_None. split.
  - intros Hnil j Hj Hid.
    assert (j ∈ filter (λ j, job_media_id j = id) (processing_jobs st)) as Hin
      by by apply list_elem_of_filter.
    rewrite Hnil in Hin. by apply elem_of_nil in Hin.
  - intros Hno. apply elem_of_nil_inv. intros j [Hid Hj]%list_elem_of_filter.
    by apply (Hno j).
Qed.

Lemma select_latest_job_Some id st j :
  select_latest_job id st = Some j →
  j ∈ processing_jobs st ∧ job_media_id j = id ∧
  ∀ j', j' ∈ processing_jobs st → job_media_id j' = id →
        created_at j' ≤ created_at j.
Proof.
  unfold select_latest_job. intros [Hin Hmax]%latest_Some.
  apply list_elem_of_filter in Hin as [Hid Hin]. split; [done|].
  split; [done|]. intros j' Hj' Hid'. apply Hmax.
  by apply list_elem_of_filter.
Qed.

(** C7.  The status query leaves the store as it was.  When some job row
    refers to the media id (and the database answers the query), the response
    carries the id, the status and the error message of a job row that refers
    to the id and that no other such row is more recent than.  When no job
    row refers to the id, the response carries the status of the media row
    and no error message (the database answering the second query), and the
    query fails with 'media not found' when there is no media row either. *)
Theorem C7_status_query qenv id st :
  post (GetJobStatus qenv id) st (λ v s t,
    s = st ∧
    (select_job_err qenv = None →
     (∃ j, j ∈ processing_jobs st ∧ job_media_id j = id) →
     ∃ j, j ∈ processing_jobs st ∧ job_media_id j = id ∧
          (∀ j', j' ∈ processing_jobs st → job_media_id j' = id →
                 created_at j' ≤ created_at j) ∧
          v = Ok {| resp_MediaID := id; resp_Status := job_status j;
                    resp_ErrorMessage := error_message j |}) ∧
    ((∀ j, j ∈ processing_jobs st → job_media_id j ≠ id) →
     (select_media_err qenv = None → ∀ row, media st !! id = Some row →
        v = Ok {| resp_MediaID := id; resp_Status := status row;
                  resp_ErrorMessage := None |}) ∧
     (media st !! id = None → v = Err "media not found"))).
Proof.
  unfold post, GetJobStatus. unfold_m. unfold select_media. simpl.
  destruct (select_job_err qenv) as [e|] eqn:Hje; simpl.
  - destruct (select_media_err qenv) as [e'|] eqn:Hme; simpl.
    + split; [done|]. split; [done|]. intros _. split; done.
    + destruct (media st !! id) as [row|] eqn:Hrow; simpl;
        (split; [done|]; split; [done|]; intros _; split; [|done]).
      * by intros _ row' [= <-].
      * done.
  - destruct (select_latest_job id st) as [j|] eqn:Hsel; simpl.
    + apply select_latest_job_Some in Hsel as (Hin & Hid & Hmax).
      split; [done|]. split.
      * intros _ _. exists j. by subst id.
      * intros Hno. by destruct (Hno j Hin).
    + pose proof Hsel as Hno. rewrite select_latest_job_None in Hno.
      destruct (select_media_err qenv) as [e'|] eqn:Hme; simpl.
      * split; [done|]. split; [|done].
        intros _ (j & Hj & Hid). by destruct (Hno j Hj).
      * destruct (media st !! id) as [row|] eqn:Hrow; simpl;
          (split; [done|]; split;
           [intros _ (j & Hj & Hid); by destruct (Hno j Hj)|]);
          intros _; split; try done.
        by intros _ row' [= <-].
Qed.

(** ** The claims on concrete runs *)

Section Examples.
#[local] Existing Instance Fixture.go.
Import Fixture.

Example Ext_of_keys :
  filepath.Ext "original/7/m1/clip.MOV" = ".MOV" ∧
  filepath.Ext "backup.tar.gz" = ".gz" ∧
  filepath.Ext "v1.2/readme" = "" ∧
  filepath.Ext "dir/.hidden" = ".hidden".
Proof. done. Qed.

Example isVideoFile_of_keys :
  isVideoFile "original/7/m1/clip.MOV" = true ∧
  isVideoFile "original/7/m2/notes.pdf" = false ∧
  isVideoFile "original/7/m3/mp4" = false.
Proof. done. Qed.

Example int_of_float64_truncates :
  int_of_float64 (S754_finite false 25 (-1)) = 12 ∧
  int_of_float64 (S754_finite true 25 (-1)) = -12 ∧
  int_of_float64 (S754_finite false 3 (-2)) = 0.
Proof. done. Qed.

Example processMedia_clip :
  value (processMedia env_ok clip store0) = None ∧
  media (final (processMedia env_ok clip store0)) !! "m1" =
    Some {| owner_id := 7; s3_key_original := "original/7/m1/clip.MOV";
            s3_key_processed := Some "processed/m1.mp4";
            size_bytes := Some 4096; duration_seconds := Some 12;
            status := "ready" |} ∧
  processing_jobs (final (processMedia env_ok clip store0)) =
    [{| job_id := "job-1"; job_media_id := "m1"; job_status := "completed";
        error_message := None; started_at := Some 100;
        completed_at := Some 160; created_at := 100 |}].
Proof. vm_compute. done. Qed.

Lemma C1_witness :
  status <$> media store_ready !! "m1" = Some "ready" ∧
  value (processMedia env_encoder_fails clip store_ready) =
    Some "ffmpeg transcoding failed: exit status 1" ∧
  status <$> media (final (processMedia env_encoder_fails clip store_ready))
    !! "m1" = Some "failed".
Proof.
  assert (has_row (MediaID clip) store_ready) as Hrow
    by (vm_compute; eauto).
  destruct (C1_status_update_is_unconditional (golib := go)
              env_encoder_fails clip store_ready Hrow eq_refl)
    as [_ (_ & Hfail & _)].
  split; [reflexivity|].
  apply (Hfail "" "ffmpeg transcoding failed: exit status 1"); reflexivity.
Defined.

(** C1 refuted: [m1] is processed and ends 'ready'; the same event is
    delivered again, this time the encoder fails, and the item that was
    'ready' ends 'failed'. *)
Lemma C1_redelivery_changes_terminal_status :
  value (processMedia env_ok clip store0) = None ∧
  status <$> media after_first !! "m1" = Some "ready" ∧
  value (processMedia env_encoder_fails clip after_first) =
    Some "ffmpeg transcoding failed: exit status 1" ∧
  status <$> media (final (processMedia env_encoder_fails clip after_first))
    !! "m1" = Some "failed".
Proof. vm_compute. done. Qed.

Lemma C2_witness :
  value (processMedia env_encoder_fails clip store0) =
    Some "ffmpeg transcoding failed: exit status 1" ∧
  EvLog Error "ffmpeg failed"
    [("error", "exit status 1");
     ("output", "x265 [error]: cannot open input")]
    ∈ events (processMedia env_encoder_fails clip store0) ∧
  ∃ j,
    j ∈ processing_jobs (final (processMedia env_encoder_fails clip store0)) ∧
    job_id j = "job-2" ∧
    error_message j = Some "ffmpeg transcoding failed: exit status 1".
Proof.
  destruct (C2_encoder_failure_text (golib := go) env_encoder_fails clip
              store0 "/tmp/media-processing-1"
              "x265 [error]: cannot open input" "exit status 1"
              eq_refl eq_refl eq_refl eq_refl)
    as (Hv & Hlog & _ & Hjob).
  split; [exact Hv|]. split; [exact Hlog|].
  destruct Hjob as (j & Hin & Hid & _ & Hmsg);
    [reflexivity|discriminate|reflexivity|].
  exists j. auto.
Defined.

(** C2 refuted: the encoder prints a diagnostic and exits with status 1;
    the error the handler returns, which is also the message stored on the
    job, is the prefix and the exit status, and the diagnostic does not
    occur in it. *)
Lemma C2_error_text_omits_encoder_output :
  ffmpeg env_encoder_fails =
    ("x265 [error]: cannot open input", Some "exit status 1") ∧
  value (processMedia env_encoder_fails clip store0) =
    Some "ffmpeg transcoding failed: exit status 1" ∧
  error_message <$>
    processing_jobs (final (processMedia env_encoder_fails clip store0)) =
    [Some "ffmpeg transcoding failed: exit status 1"] ∧
  is_substring "x265 [error]: cannot open input"
    "ffmpeg transcoding failed: exit status 1" = false.
Proof. vm_compute. done. Qed.

Lemma C3_witness :
  media (final (processMedia env_ok notes store0)) !! "m2" =
    Some {| owner_id := 7; s3_key_original := "original/7/m2/notes.pdf";
            s3_key_processed := Some ""; size_bytes := Some 9000;
            duration_seconds := None; status := "ready" |} ∧
  processed_key <$> media (final (processMedia env_ok notes store0)) !! "m2" =
    processed_key <$> media store0 !! "m2".
Proof.
  destruct (C3_processed_key_remains_empty (golib := go) env_ok notes store0
              (row_queued (S3Key notes)) eq_refl eq_refl eq_refl)
    as (_ & Hrow & _ & _ & _ & Hsame).
  split; [exact Hrow|exact (Hsame eq_refl)].
Defined.

Lemma C4_witness :
  value (transcodeVideo env_ok "m2" (S3Key notes) store0) = ("", None) ∧
  (∀ name args,
     EvCommand name args ∉ events (processMedia env_ok notes store0)) ∧
  value (processMedia env_ok notes store0) = None ∧
  status <$> media (final (processMedia env_ok notes store0)) !! "m2" =
    Some "ready".
Proof.
  assert (ToLower (filepath.Ext (S3Key notes)) ∉ videoExts) as Hext.
  { apply isVideoFile_false. reflexivity. }
  destruct (C4_non_video_is_not_transcoded (golib := go) env_ok notes
              store0 "/tmp/media-processing-1" Hext eq_refl eq_refl)
    as [(Hv & _ & _) (Hno & _ & Hready)].
  split; [exact Hv|]. split; [exact Hno|].
  destruct (Hready eq_refl) as [Hnil Hst]. split; [exact Hnil|].
  apply Hst. vm_compute. eauto.
Defined.

Lemma C5_witness :
  value (processMedia env_fetch_fails clip store0) =
    Some "failed to download file: unexpected EOF" ∧
  status <$> media (final (processMedia env_fetch_fails clip store0))
    !! "m1" = Some "failed" ∧
  ∃ j,
    j ∈ processing_jobs (final (processMedia env_fetch_fails clip store0)) ∧
    job_status j = "failed" ∧
    error_message j = Some "failed to download file: unexpected EOF" ∧
    completed_at j = Some 160.
Proof.
  destruct (C5_transcode_error_marks_failed (golib := go) env_fetch_fails
              clip store0 "" "failed to download file: unexpected EOF"
              eq_refl eq_refl)
    as (Hv & _ & _ & Hst & Hjob).
  split; [exact Hv|]. split.
  - apply Hst; [reflexivity|]. vm_compute. eauto.
  - destruct Hjob as [_ Hjob]; [reflexivity|discriminate|].
    destruct (Hjob eq_refl) as (j & Hin & _ & _ & Hs & Hm & Hc).
    exists j. auto.
Defined.

Lemma C6_witness :
  value (processMedia env_insert_fails clip store0) = None ∧
  value (processMedia env_status_fails clip store0) =
    Some "connection refused" ∧
  events (processMedia env_status_fails clip store0) =
    [EvLog Info "processing media"
       [("media_id", "m1"); ("s3_key", "original/7/m1/clip.MOV")];
     EvSql (InsertJob "job-1" "m1" 100) None;
     EvSql (UpdateMediaStatus "processing" "m1") (Some "connection refused");
     EvLog Error "failed to update media status"
       [("error", "connection refused")]].
Proof.
  destruct (C6_insert_failure_continues_status_failure_returns (golib := go)
              env_insert_fails clip store0) as [Hins _].
  destruct (Hins "connection refused" eq_refl) as (_ & _ & Hx).
  split; [exact (Hx None)|].
  destruct (C6_insert_failure_continues_status_failure_returns (golib := go)
              env_status_fails clip store0) as [_ Hst].
  destruct (Hst "connection refused" eq_refl) as (Hv & _ & Ht).
  split; [exact Hv|exact Ht].
Defined.

Lemma C7_witness :
  value (GetJobStatus qenv_ok "m1" store_two_jobs) =
    Ok {| resp_MediaID := "m1"; resp_Status := "failed";
          resp_ErrorMessage :=
            Some "ffmpeg transcoding failed: exit status 1" |} ∧
  value (GetJobStatus qenv_ok "m2" store_two_jobs) =
    Ok {| resp_MediaID := "m2"; resp_Status := "queued";
          resp_ErrorMessage := None |} ∧
  value (GetJobStatus qenv_ok "m3" store_two_jobs) = Err "media not found" ∧
  final (GetJobStatus qenv_ok "m1" store_two_jobs) = store_two_jobs.
Proof.
  split; [reflexivity|].
  destruct (C7_status_query qenv_ok "m2" store_two_jobs) as (_ & _ & Hm2).
  destruct (C7_status_query qenv_ok "m3" store_two_jobs) as (_ & _ & Hm3).
  destruct (C7_status_query qenv_ok "m1" store_two_jobs) as (Hs & _).
  assert (∀ id, id ≠ "m1" → ∀ j, j ∈ processing_jobs store_two_jobs →
            job_media_id j ≠ id) as Hno.
  { intros id Hid j Hj. simpl in Hj.
    repeat (apply elem_of_cons in Hj as [->|Hj]; [simpl; congruence|]).
    by apply elem_of_nil in Hj. }
  split; [|split; [|exact Hs]].
  - destruct (Hm2 (Hno "m2" ltac:(discriminate))) as [Hrow _].
    exact (Hrow eq_refl _ eq_refl).
  - destruct (Hm3 (Hno "m3" ltac:(discriminate))) as [_ Hnone].
    exact (Hnone eq_refl).
Defined.

Lemma C8_witness :
  value (getVideoDuration env_probe_na "/tmp/media-processing-1/output.mp4"
           store0) = 0 ∧
  value (processMedia env_probe_na clip store0) =
  value (processMedia env_ok clip store0).
Proof.
  destruct (C8_probe_failure_is_not_an_error (golib := go) env_probe_na
              "/tmp/media-processing-1/output.mp4" store0)
    as ((_ & _ & Hparse) & _ & _).
  destruct (C8_probe_failure_is_not_an_error (golib := go) env_ok
              "/tmp/media-processing-1/output.mp4" store0)
    as (_ & _ & Hsame).
  split; [exact (Hparse "N/A" eq_refl eq_refl)|].
  exact (Hsame ("N/A", None) clip).
Defined.

Lemma C9_witness :
  isVideoFile (S3Key notes) = false ∧
  value (processMedia env_fetch_fails notes store0) =
    Some "failed to download file: unexpected EOF" ∧
  status <$> media (final (processMedia env_fetch_fails notes store0))
    !! "m2" = Some "failed".
Proof.
  split; [reflexivity|].
  destruct (C9_fetch_failure_fails_non_video (golib := go) env_fetch_fails
              notes store0 "/tmp/media-processing-1"
              eq_refl eq_refl eq_refl eq_refl)
    as [_ Hfail].
  destruct (Hfail "unexpected EOF") as (_ & Hv & _ & Hst).
  { right. repeat split. }
  split.
  - destruct Hv as [Hv|Hv]; [|exact Hv].
    rewrite Hv. vm_compute in Hv. discriminate.
  - apply Hst; [reflexivity|]. vm_compute. eauto.
Defined.

Lemma C10_witness :
  EvSql (UpdateMediaDuration "m1" 12) None
    ∈ events (transcodeVideo env_ok "m1" (S3Key clip) store0) ∧
  duration_seconds <$>
    media (final (transcodeVideo env_ok "m1" (S3Key clip) store0)) !! "m1" =
    Some (Some 12) ∧
  duration_seconds <$>
    media (final (transcodeVideo env_probe_na "m1" (S3Key clip) store0))
      !! "m1" =
    duration_seconds <$> media store0 !! "m1".
Proof.
  destruct (C10_duration_written_only_when_positive (golib := go) env_ok
              "m1" (S3Key clip) store0 "/tmp/media-processing-1"
              "encoded 300 frames" eq_refl eq_refl eq_refl)
    as (_ & Hpos & _).
  destruct (C10_duration_written_only_when_positive (golib := go)
              env_probe_na "m1" (S3Key clip) store0 "/tmp/media-processing-1"
              "encoded 300 frames" eq_refl eq_refl eq_refl)
    as (_ & _ & Hzero).
  destruct Hpos as [Hin Hval]; [reflexivity|].
  split; [exact Hin|]. split.
  - apply Hval; [reflexivity|]. vm_compute. eauto.
  - apply Hzero. discriminate.
Defined.

End Examples.

(** * The handler beyond the specification, and the media service *)

Lemma post_conseq {A} (m : M A) st (P Q : A → Store → list Event → Prop) :
  post m st P → (∀ a s t, P a s t → Q a s t) → post m st Q.
Proof. unfold post. auto. Qed.

Lemma post_conj {A} (m : M A) st (P Q : A → Store → list Event → Prop) :
  post m st P → post m st Q → post m st (λ a s t, P a s t ∧ Q a s t).
Proof. unfold post. auto. Qed.

Section HandlerRuns.
Context {golib : GoLib}.

(** *** The working directory *)

(** X2.  The working directory is removed on every path of the transcode
    sequence: once the client and the directory have been created, the
    sequence removes that directory, once, as the last thing it does,
    whatever fails in between; when one of the two could not be created
    nothing is removed. *)
Theorem X2_workdir_removed_on_every_path env id key st :
  post (transcodeVideo env id key) st (λ _ _ t,
    match minio_new env, mkdir_temp env with
    | None, Ok d =>
        last t = Some (EvRemoveAll d) ∧
        filter (λ ev, is_RemoveAll ev = true) t = [EvRemoveAll d]
    | _, _ => filter (λ ev, is_RemoveAll ev = true) t = []
    end).
Proof.
  unfold transcodeVideo.
  repeat first
    [ apply (post_getVideoDuration_value _ _ _ st)
    | post_step ].
  all: use_env; try done.
Qed.


(** *** What a run leaves alone *)

Lemma only_row_refl id st : only_row id st st.
Proof.
  split; [done|]. destruct (media st !! id); by constructor.
Qed.

Lemma only_row_trans id st1 st2 st3 :
  only_row id st1 st2 → only_row id st2 st3 → only_row id st1 st3.
Proof.
  intros [Ho1 Hr1] [Ho2 Hr2]. split.
  - intros k Hk. by rewrite Ho2, Ho1.
  - destruct Hr1 as [r1 r2 [? ?]|]; inversion Hr2 as [? r3 [? ?]|];
      constructor. split; congruence.
Qed.

Lemma only_row_alter id f st :
  (∀ r, same_origin r (f r)) → only_row id st (on_media (alter f id) st).
Proof.
  intros Hf. split; simpl.
  - intros k Hk. by rewrite lookup_alter_ne.
  - rewrite lookup_alter_eq. destruct (media st !! id); constructor.
    apply Hf.
Qed.

Lemma only_row_step id s st : stmt_on id s → only_row id st (apply_stmt s st).
Proof.
  destruct s; simpl; intros Hon; subst;
    first [ apply only_row_alter; intros r; by split
          | split; [done|]; simpl; destruct (media st !! id); by constructor ].
Qed.

Lemma only_row_steps id s st st' :
  stmt_on id s → only_row id st st' → only_row id st (apply_stmt s st').
Proof. intros Hon Hst. eapply only_row_trans; [done|]. by apply only_row_step. Qed.

Lemma only_row_dom id st s : only_row id st s → dom (media s) = dom (media st).
Proof.
  intros [Ho Hr]. apply set_eq. intros k. rewrite !elem_of_dom.
  destruct (decide (k = id)) as [->|Hk]; [|by rewrite Ho].
  destruct Hr; split; intros [? ?]; by eauto.
Qed.

(** The statements the transcode sequence issues are updates of the
    duration and of the size of the row it works on, and it changes nothing
    else in the store.  What it uploads, it uploads for a video key, to the
    bucket, under the key made from the media id, with the size [Stat]
    gave and as [video/mp4]; a key it returns is the key of such an upload. *)
Lemma transcodeVideo_writes env id key st :
  post (transcodeVideo env id key) st (λ v s t,
    only_row id st s ∧
    (∀ stmt o, EvSql stmt o ∈ t →
       (∃ d, stmt = UpdateMediaDuration id d) ∨
       (∃ n, stmt = UpdateMediaSize id n)) ∧
    (∀ b k n c, EvPutObject b k n c ∈ t →
       b = S3Bucket env ∧ k = "processed/" +:+ id +:+ ".mp4" ∧
       c = "video/mp4" ∧ file_stat env = Ok n ∧ isVideoFile key = true) ∧
    (v.2 = None → v.1 ≠ "" →
       v.1 = "processed/" +:+ id +:+ ".mp4" ∧
       ∃ n, file_stat env = Ok n ∧
            EvPutObject (S3Bucket env) v.1 n "video/mp4" ∈ t)).
Proof.
  unfold transcodeVideo.
  repeat first
    [ apply (post_getVideoDuration_value _ _ _ st)
    | post_step ].
  all: split;
    [ repeat (apply only_row_steps; [done|]); apply only_row_refl |].
  all: split; [intros stmt o Hin; split_in Hin; simplify_eq; eauto|].
  all: split;
    [ intros b k n c Hin; split_in Hin; simplify_eq; repeat split; try done;
      by apply negb_false_iff
    | simpl; intros ? ?; try done ].
  all: split; [done|]; eexists; split; [done|]; by in_trace.
Qed.

Lemma post_transcodeVideo_writes env id key st Q :
  (∀ v s t,
     only_row id st s →
     processing_jobs s = processing_jobs st →
     (∀ stmt o, EvSql stmt o ∈ t →
        (∃ d, stmt = UpdateMediaDuration id d) ∨
        (∃ n, stmt = UpdateMediaSize id n)) →
     Q v s t) →
  post (transcodeVideo env id key) st Q.
Proof.
  intros HQ. pose proof (transcodeVideo_writes env id key st) as (Ho & Hs & _).
  pose proof (transcodeVideo_facts env id key st) as ([Hj _] & _).
  by apply HQ.
Qed.

Lemma processMedia_only_row env msg st :
  post (processMedia env msg) st (λ _ s _, only_row (MediaID msg) st s).
Proof.
  unfold processMedia.
  repeat first [apply post_transcodeVideo_writes; intros | post_step].
  all: repeat (apply only_row_steps; [done|]).
  all: first
    [ apply only_row_refl
    | eapply only_row_trans; [|eassumption];
      repeat (apply only_row_steps; [done|]); apply only_row_refl ].
Qed.

(** X3.  A run of the handler adds no media row and removes none; it
    leaves every row other than the event's as it was, and it leaves the
    owner and the original key of the event's row as they were. *)
Theorem X3_other_rows_untouched env msg st :
  post (processMedia env msg) st (λ _ s _,
    dom (media s) = dom (media st) ∧
    (∀ k, k ≠ MediaID msg → media s !! k = media st !! k) ∧
    ∀ r, media st !! MediaID msg = Some r →
      ∃ r', media s !! MediaID msg = Some r' ∧
            owner_id r' = owner_id r ∧
            s3_key_original r' = s3_key_original r).
Proof.
  eapply post_conseq; [apply processMedia_only_row|].
  intros v s t Ho. simpl in Ho. split; [by eapply only_row_dom|].
  destruct Ho as [Ho Hr]. split; [done|]. intros r Hrow.
  rewrite Hrow in Hr. inversion Hr as [? r' [? ?]|]. by exists r'.
Qed.

(** *** The jobs table *)

Lemma jobs_kept_refl id st : jobs_kept id st st.
Proof. intros i j Hj. by exists j. Qed.

Lemma jobs_kept_trans id st1 st2 st3 :
  jobs_kept id st1 st2 → jobs_kept id st2 st3 → jobs_kept id st1 st3.
Proof.
  intros H12 H23 i j Hj.
  destruct (H12 i j Hj) as (j2 & Hj2 & (Hid & Hm & Hc & Hs) & Heq2).
  destruct (H23 i j2 Hj2) as (j3 & Hj3 & (Hid' & Hm' & Hc' & Hs') & Heq3).
  exists j3. split; [done|]. split; [repeat split; congruence|].
  intros Hne. rewrite Heq3, Heq2; [done..|congruence].
Qed.

Lemma jobs_kept_step id s st : job_stmt_on id s → jobs_kept id st (apply_stmt s st).
Proof.
  intros Hon i j Hj. destruct s; simpl in *; subst; try by exists j.
  - exists j. split; [by apply lookup_app_l_Some|done].
  - unfold update_job. rewrite list_lookup_fmap, Hj. simpl.
    destruct (String.eqb_spec (job_id j) id); eexists; by repeat split.
  - unfold update_job. rewrite list_lookup_fmap, Hj. simpl.
    destruct (String.eqb_spec (job_id j) id); eexists; by repeat split.
Qed.

Lemma jobs_kept_steps id s st st' :
  job_stmt_on id s → jobs_kept id st st' → jobs_kept id st (apply_stmt s st').
Proof. intros Hon Hst. eapply jobs_kept_trans; [done|]. by apply jobs_kept_step. Qed.

Lemma jobs_kept_eq id st st' s :
  processing_jobs s = processing_jobs st' → jobs_kept id st st' →
  jobs_kept id st s.
Proof. intros Heq Hk i j Hj. rewrite Heq. by apply Hk. Qed.

Lemma length_update_job id f jobs : length (update_job id f jobs) = length jobs.
Proof. unfold update_job. by rewrite length_fmap. Qed.

(** X4.  The handler never removes a job row and never changes which item a
    job row is about or when it was created; the rows it had not created in
    this run are as they were.  The table grows by the one row of the run
    when the insert succeeds, and is as it was when the insert fails. *)
Theorem X4_jobs_append_only env msg st :
  post (processMedia env msg) st (λ _ s _,
    jobs_kept (new_job_id env) st s ∧
    match insert_job_err env with
    | None =>
        length (processing_jobs s) = S (length (processing_jobs st)) ∧
        ∃ j, processing_jobs s !! length (processing_jobs st) = Some j ∧
             same_job (new_job (new_job_id env) (MediaID msg)
                         (insert_job_now env)) j
    | Some _ => processing_jobs s = processing_jobs st
    end).
Proof.
  unfold processMedia.
  repeat first [apply post_transcodeVideo_writes; intros | post_step].
  all: use_env.
  all: split;
    [ repeat (apply jobs_kept_steps; [done|]);
      first
        [ apply jobs_kept_refl
        | eapply jobs_kept_eq; [eassumption|];
          repeat (apply jobs_kept_steps; [done|]); apply jobs_kept_refl ]
    | ].
  all: simpl; rewrite ?length_update_job;
    repeat match goal with
    | Hj : processing_jobs _ = _ |- _ => rewrite Hj; clear Hj
    end; simpl; rewrite ?length_app; simpl.
  all: try done.
  all: (split; [lia|]).
  all: unfold update_job; rewrite ?list_lookup_fmap, ?lookup_app_r, ?Nat.sub_diag by done;
    simpl; rewrite ?String.eqb_refl; eexists; by repeat split.
Qed.


(** X7.  Whatever the transcode sequence uploads goes to the configured
    bucket, under the key [processed/<media id>.mp4], as [video/mp4], with
    the size [Stat] reported, and only for a key with a video extension; and
    whenever it returns a key that is not empty, that key is the one it has
    uploaded under. *)
Theorem X7_returned_key_is_uploaded_key env id key st :
  post (transcodeVideo env id key) st (λ v _ t,
    (∀ b k n c, EvPutObject b k n c ∈ t →
       b = S3Bucket env ∧ k = "processed/" +:+ id +:+ ".mp4" ∧
       c = "video/mp4" ∧ file_stat env = Ok n ∧ isVideoFile key = true) ∧
    (v.2 = None → v.1 ≠ "" →
       v.1 = "processed/" +:+ id +:+ ".mp4" ∧
       ∃ n, file_stat env = Ok n ∧
            EvPutObject (S3Bucket env) v.1 n "video/mp4" ∈ t)).
Proof.
  eapply post_conseq; [apply transcodeVideo_writes|].
  intros v s t (_ & _ & Hput & Hkey). by split.
Qed.

(** X8.  The transcode sequence writes to the database nothing but the
    duration and the size of the row of its media id: every statement it
    issues is one of these two updates, the jobs table is as it was, no media
    row is added or removed, every other row is as it was, and its own row
    keeps its status, processed key, owner and original key. *)
Theorem X8_transcode_writes_duration_and_size_only env id key st :
  post (transcodeVideo env id key) st (λ _ s t,
    (∀ stmt o, EvSql stmt o ∈ t →
       (∃ d, stmt = UpdateMediaDuration id d) ∨
       (∃ n, stmt = UpdateMediaSize id n)) ∧
    processing_jobs s = processing_jobs st ∧
    dom (media s) = dom (media st) ∧
    (∀ k, k ≠ id → media s !! k = media st !! k) ∧
    ∀ r, media st !! id = Some r →
      ∃ r', media s !! id = Some r' ∧ status r' = status r ∧
            s3_key_processed r' = s3_key_processed r ∧
            owner_id r' = owner_id r ∧
            s3_key_original r' = s3_key_original r).
Proof.
  eapply post_conseq;
    [apply post_conj; [apply transcodeVideo_writes|apply transcodeVideo_facts]|].
  intros v s t [(Ho & Hs & _) ([Hj Hf] & _)].
  split; [done|]. split; [done|]. split; [by eapply only_row_dom|].
  destruct Ho as [Ho Hr]. split; [done|]. intros r Hrow.
  specialize (Hf id). rewrite Hrow in Hr, Hf.
  inversion Hr as [? r' [? ?] Heq1 Heq2|]. rewrite <- Heq2 in Hf.
  inversion Hf as [? ? [? ?]|]. subst. by exists r'.
Qed.

(** The run of the transcode sequence on a video key when every call
    succeeds. *)
Lemma transcodeVideo_success env id key st d out size :
  staging env = Some d → isVideoFile key = true →
  ffmpeg env = (out, None) → os_open env = None →
  file_stat env = Ok size → put_object env = None →
  post (transcodeVideo env id key) st (λ v s t,
    v = ("processed/" +:+ id +:+ ".mp4", None) ∧
    EvPutObject (S3Bucket env) ("processed/" +:+ id +:+ ".mp4") size
      "video/mp4" ∈ t ∧
    (set_size_err env = None → has_row id st →
       size_bytes <$> media s !! id = Some (Some size))).
Proof.
  intros (Hc & Hd & Hg & Hf & Hio)%staging_fields Hv Hff Hop Hstat Hput.
  unfold transcodeVideo.
  repeat first
    [ apply (post_getVideoDuration_value _ _ _ st)
    | post_step; try congruence;
      try match goal with
          | Hb : negb (isVideoFile _) = _ |- _ =>
              rewrite Hv in Hb; discriminate
          end ].
  all: split; [done|]; split; [by in_trace|].
  all: intros ? [r Hr]; try congruence.
  all: simpl; rewrite ?lookup_alter_eq, Hr; done.
Qed.

(** The run of the handler on a video key when every call succeeds. *)
Lemma processMedia_video_success env msg st d out size :
  set_processing_err env = None →
  staging env = Some d →
  isVideoFile (S3Key msg) = true →
  ffmpeg env = (out, None) →
  os_open env = None →
  file_stat env = Ok size →
  put_object env = None →
  set_ready_err env = None →
  has_row (MediaID msg) st →
  post (processMedia env msg) st (λ v s t,
    v = None ∧
    EvPutObject (S3Bucket env) ("processed/" +:+ MediaID msg +:+ ".mp4") size
      "video/mp4" ∈ t ∧
    status <$> media s !! MediaID msg = Some "ready" ∧
    s3_key_processed <$> media s !! MediaID msg =
      Some (Some ("processed/" +:+ MediaID msg +:+ ".mp4")) ∧
    (set_size_err env = None →
       size_bytes <$> media s !! MediaID msg = Some (Some size)) ∧
    (insert_job_err env = None → new_job_id env ≠ "" →
     complete_job_err env = None →
       ∃ j, j ∈ processing_jobs s ∧ job_id j = new_job_id env ∧
            job_media_id j = MediaID msg ∧ job_status j = "completed" ∧
            error_message j = None ∧
            completed_at j = Some (complete_job_now env))).
Proof.
  intros Hproc Hst Hv Hff Hop Hstat Hput Hready Hrow.
  unfold processMedia.
  repeat first
    [ lazymatch goal with
      | |- post (transcodeVideo _ _ _) ?st0 _ =>
          eapply post_conseq;
          [ apply post_conj;
            [ apply transcodeVideo_facts
            | by apply (transcodeVideo_success _ _ _ _ d out size) ]
          | intros ? ? ? [([Hjobs Hframe] & _ & _) (-> & Hin & Hsize)] ]
      end
    | post_step; try congruence ].
  all: split; [done|]; split; [by in_trace|].
  all: assert (has_row (MediaID msg) s) as [r Hr]
    by (eapply has_row_frame; [by split|]; eauto using has_row_apply).
  all: simpl; rewrite ?lookup_alter_eq, Hr; simpl.
  all: split; [done|]; split; [done|].
  all: split;
    [ intros Hsz;
      match type of Hsize with
      | _ → ?P → _ => assert P as Hp by eauto using has_row_apply
      end;
      specialize (Hsize Hsz Hp); by rewrite Hr in Hsize
    | intros Hi Hid Hcj; try congruence ].
  all: try (apply negb_false_iff, String.eqb_eq in Heqb; done).
  all: rewrite Hjobs; simpl; eexists; split;
    [by apply update_job_last|done].
Qed.

(** X1.  For an event with a video key whose row exists, when every call
    of the run succeeds, the handler returns no error, the transcoded file
    has been uploaded under [processed/<media id>.mp4], and the row is
    'ready' with that key as its processed key (and the uploaded size as its
    size, the database accepting that update); the job of the run, when it
    was created, is 'completed', with no error message and its completion
    time set. *)
Theorem X1_video_success env msg st d out size :
  set_processing_err env = None →
  staging env = Some d →
  isVideoFile (S3Key msg) = true →
  ffmpeg env = (out, None) →
  os_open env = None →
  file_stat env = Ok size →
  put_object env = None →
  set_ready_err env = None →
  has_row (MediaID msg) st →
  post (processMedia env msg) st (λ v s t,
    v = None ∧
    EvPutObject (S3Bucket env) ("processed/" +:+ MediaID msg +:+ ".mp4") size
      "video/mp4" ∈ t ∧
    status <$> media s !! MediaID msg = Some "ready" ∧
    s3_key_processed <$> media s !! MediaID msg =
      Some (Some ("processed/" +:+ MediaID msg +:+ ".mp4")) ∧
    (set_size_err env = None →
       size_bytes <$> media s !! MediaID msg = Some (Some size)) ∧
    (insert_job_err env = None → new_job_id env ≠ "" →
     complete_job_err env = None →
       ∃ j, j ∈ processing_jobs s ∧ job_id j = new_job_id env ∧
            job_media_id j = MediaID msg ∧ job_status j = "completed" ∧
            error_message j = None ∧
            completed_at j = Some (complete_job_now env))).
Proof.
  intros. by eapply processMedia_video_success.
Qed.

Lemma post_transcodeVideo_all env id key st st0 Q :
  (∀ v s t,
     v = value (transcodeVideo env id key st0) →
     frame st s →
     (∀ stmt o, EvSql stmt o ∈ t →
        (∃ d, stmt = UpdateMediaDuration id d) ∨
        (∃ n, stmt = UpdateMediaSize id n)) →
     Q v s t) →
  post (transcodeVideo env id key) st Q.
Proof.
  intros HQ. pose proof (transcodeVideo_writes env id key st) as (_ & Hs & _).
  pose proof (transcodeVideo_facts env id key st) as (Hf & _).
  destruct (blind_transcodeVideo env id key st st0) as [Hv _].
  by apply HQ.
Qed.

(** X5.  When the transcode sequence has succeeded and the final update of
    the media row is rejected, the handler returns that error and stops: the
    row is left with status 'processing', no update of a job is issued, and
    the job of the run, when it was created, is left as it was inserted, with
    status 'processing' and no completion time. *)
Theorem X5_ready_update_failure_leaves_processing env msg st key e :
  set_processing_err env = None →
  value (transcodeVideo env (MediaID msg) (S3Key msg) st) = (key, None) →
  set_ready_err env = Some e →
  post (processMedia env msg) st (λ v s t,
    v = Some e ∧
    (has_row (MediaID msg) st →
       status <$> media s !! MediaID msg = Some "processing") ∧
    (∀ jid now o, EvSql (UpdateJobCompleted jid now) o ∉ t) ∧
    (∀ jid m now o, EvSql (UpdateJobFailed jid m now) o ∉ t) ∧
    match insert_job_err env with
    | None =>
        processing_jobs s =
          processing_jobs st ++
          [new_job (new_job_id env) (MediaID msg) (insert_job_now env)]
    | Some _ => processing_jobs s = processing_jobs st
    end).
Proof.
  intros Hproc Htr Hready. unfold processMedia.
  repeat first
    [ apply (post_transcodeVideo_all _ _ _ _ st); intros
    | post_step; try congruence ].
  all: match goal with
       | Hv : _ = value (transcodeVideo _ _ _ _) |- _ =>
           rewrite Htr in Hv; simplify_eq
       end.
  all: split; [congruence|].
  all: match goal with
       | Hf : frame _ _, Hs : ∀ _ _, EvSql _ _ ∈ _ → _ |- _ =>
           destruct Hf as [Hjobs Hframe]; rename Hs into Hsql
       end.
  all: split;
    [ intros Hrow;
      match type of Hframe with
      | ∀ _, option_Forall2 _ (media ?st1 !! _) _ =>
          assert (status <$> media st1 !! MediaID msg = Some "processing")
            as Hst1
            by (apply status_after_update; eauto using has_row_apply)
      end;
      specialize (Hframe (MediaID msg));
      destruct Hframe as [r r' [Hs _]|]; simpl in *; congruence
    | ].
  all: split;
    [ intros jid now o Hin; split_in Hin;
      destruct (Hsql _ _ Hin) as [[? ?]|[? ?]]; discriminate
    | ].
  all: split;
    [ intros jid m now o Hin; split_in Hin;
      destruct (Hsql _ _ Hin) as [[? ?]|[? ?]]; discriminate
    | ].
  all: by use_env.
Qed.

End HandlerRuns.

(** *** The status query after a run *)

Lemma latest_snoc jobs n :
  (∀ j, j ∈ jobs → created_at j < created_at n) →
  latest (jobs ++ [n]) = Some n.
Proof.
  induction jobs as [|j jobs IH]; intros Hlt; [done|]. simpl.
  rewrite IH by (intros j' Hj'; apply Hlt; by apply list_elem_of_further).
  assert (created_at j < created_at n) as Hj
    by (apply Hlt, list_elem_of_here).
  apply Z.ltb_lt in Hj. by rewrite Hj.
Qed.

Lemma select_latest_job_snoc id st s g x :
  processing_jobs s = (g <$> processing_jobs st) ++ [x] →
  (∀ j, job_media_id (g j) = job_media_id j ∧ created_at (g j) = created_at j) →
  job_media_id x = id →
  (∀ j, j ∈ processing_jobs st → job_media_id j = id →
        created_at j < created_at x) →
  select_latest_job id s = Some x.
Proof.
  intros Hs Hg Hx Hlt. unfold select_latest_job. rewrite Hs, filter_app.
  rewrite (filter_cons_True _ x) by done. simpl.
  apply latest_snoc. intros j [Hid Hj]%list_elem_of_filter.
  apply list_elem_of_fmap in Hj as (j0 & -> & Hj0).
  destruct (Hg j0) as [Hm Hc]. rewrite Hc. apply Hlt; [done|congruence].
Qed.

Lemma GetJobStatus_of_job qenv id st j :
  select_job_err qenv = None →
  select_latest_job id st = Some j →
  value (GetJobStatus qenv id st) =
    Ok {| resp_MediaID := job_media_id j; resp_Status := job_status j;
          resp_ErrorMessage := error_message j |}.
Proof.
  intros Hq Hsel. unfold GetJobStatus. unfold_m. simpl.
  by rewrite Hq, Hsel.
Qed.

Lemma update_job_snoc id f jobs x :
  job_id x = id →
  update_job id f (jobs ++ [x]) =
    ((λ j, if String.eqb (job_id j) id then f j else j) <$> jobs) ++ [f x].
Proof.
  intros Hid. unfold update_job. rewrite fmap_app. simpl.
  by rewrite Hid, String.eqb_refl.
Qed.

Section StatusAfterRun.
Context {golib : GoLib}.

(** X9.  The status query after a run whose job row was created, the run's
    job being more recent than every earlier job of the item: it answers
    'failed' with the error's text when the transcode sequence failed,
    'completed' with no message when the run succeeded, and 'processing'
    with no message when the transcode sequence succeeded but the final
    update of the media row was rejected (the closing update of the job
    being accepted in the first two cases). *)
Theorem X9_status_query_after_run env qenv msg st :
  set_processing_err env = None →
  insert_job_err env = None →
  new_job_id env ≠ "" →
  select_job_err qenv = None →
  (∀ j, j ∈ processing_jobs st → job_media_id j = MediaID msg →
        created_at j < insert_job_now env) →
  post (processMedia env msg) st (λ _ s _,
    match (value (transcodeVideo env (MediaID msg) (S3Key msg) st)).2,
          set_ready_err env with
    | Some e, _ =>
        fail_job_err env = None →
        value (GetJobStatus qenv (MediaID msg) s) =
          Ok {| resp_MediaID := MediaID msg; resp_Status := "failed";
                resp_ErrorMessage := Some e |}
    | None, None =>
        complete_job_err env = None →
        value (GetJobStatus qenv (MediaID msg) s) =
          Ok {| resp_MediaID := MediaID msg; resp_Status := "completed";
                resp_ErrorMessage := None |}
    | None, Some _ =>
        value (GetJobStatus qenv (MediaID msg) s) =
          Ok {| resp_MediaID := MediaID msg; resp_Status := "processing";
                resp_ErrorMessage := None |}
    end).
Proof.
  intros Hproc Hins Hid Hq Hlt. unfold processMedia.
  repeat first
    [ apply (post_transcodeVideo_all _ _ _ _ st); intros
    | post_step; try congruence ].
  all: try (apply negb_false_iff, String.eqb_eq in Heqb; done).
  all: match goal with
       | Hv : _ = value (transcodeVideo _ _ _ _) |- _ =>
           rewrite <- Hv; cbn [fst snd]
       end.
  all: use_env; try (intros ?; try congruence).
  all: match goal with Hf : frame _ _ |- _ => destruct Hf as [Hjobs _] end.
  all: simpl in Hjobs.
  all: match goal with
       | |- value (GetJobStatus _ _ ?sf) = _ =>
           eassert (select_latest_job (MediaID msg) sf = Some _) as Hsel
       end.
  all: try (eapply (select_latest_job_snoc _ st);
    [ simpl; rewrite Hjobs; by apply update_job_snoc
    | intros j; simpl; by case_match
    | done
    | done ]).
  all: try (eapply (select_latest_job_snoc _ st _ id);
    [ by rewrite list_fmap_id | done | done | done ]).
  all: by rewrite (GetJobStatus_of_job _ _ _ _ Hq Hsel).
Qed.

(** X10.  The status query treats every failure of its first query as "no
    job": it then answers from the media row, also when job rows for the
    item exist; and it treats every failure of its second query as "no
    item": it then answers 'media not found', also when the row exists. *)
Theorem X10_status_query_faults qenv id st :
  (∀ e row, select_job_err qenv = Some e → select_media_err qenv = None →
     media st !! id = Some row →
     value (GetJobStatus qenv id st) =
       Ok {| resp_MediaID := id; resp_Status := status row;
             resp_ErrorMessage := None |}) ∧
  (∀ e, select_media_err qenv = Some e →
     (select_job_err qenv ≠ None ∨
      ∀ j, j ∈ processing_jobs st → job_media_id j ≠ id) →
     value (GetJobStatus qenv id st) = Err "media not found").
Proof.
  split.
  - intros e row Hj Hm Hrow. unfold GetJobStatus. unfold_m.
    unfold select_media. simpl. by rewrite Hj, Hm, Hrow.
  - intros e Hm Hno. unfold GetJobStatus. unfold_m. simpl.
    destruct (select_job_err qenv) as [e'|] eqn:Hj; simpl.
    + by rewrite Hm.
    + destruct Hno as [Hno|Hno]; [done|].
      apply select_latest_job_None in Hno. by rewrite Hno, Hm.
Qed.

End StatusAfterRun.

(** *** The name of the staged file *)

Example Clean_of_paths :
  filepath.Clean "abc//def//ghi" = "abc/def/ghi" ∧
  filepath.Clean "abc/./../def" = "def" ∧
  filepath.Clean "abc/def/../../.." = ".." ∧
  filepath.Clean "../../abc" = "../../abc" ∧
  filepath.Clean "/../abc/" = "/abc" ∧
  filepath.Clean "/" = "/" ∧
  filepath.Clean "" = "." ∧
  filepath.Clean "./" = ".".
Proof. done. Qed.

Example Join_of_paths :
  filepath.Join "/tmp/media-processing-1" "input.MOV" =
    "/tmp/media-processing-1/input.MOV" ∧
  filepath.Join "" "input.mp4" = "input.mp4" ∧
  filepath.Join "/tmp/" "input.mp4" = "/tmp/input.mp4" ∧
  filepath.Join "/" "output.mp4" = "/output.mp4" ∧
  filepath.Join "work/../tmp//x" "input" = "tmp/x/input" ∧
  filepath.Join "a" "" = "a" ∧
  filepath.Join "" "" = "".
Proof. done. Qed.

Lemma list_ascii_app (a b : string) :
  String.list_ascii_of_string (a +:+ b) =
  String.list_ascii_of_string a ++ String.list_ascii_of_string b.
Proof. induction a as [|c a IH]; simpl; [done|]. by rewrite IH. Qed.

Lemma list_ascii_push (p : list ascii) (acc : string) :
  String.list_ascii_of_string (fold_left (λ a c, String c a) p acc) =
  rev p ++ String.list_ascii_of_string acc.
Proof.
  revert acc. induction p as [|c p IH]; intros acc; simpl; [done|].
  rewrite IH. simpl. by rewrite <- app_assoc.
Qed.

Lemma Ext_scan_plain (p rest : list ascii) (acc : string) :
  Forall (λ c, c ≠ "/"%char ∧ c ≠ "."%char) p →
  filepath.Ext_scan (p ++ rest) acc =
  filepath.Ext_scan rest (fold_left (λ a c, String c a) p acc).
Proof.
  intros Hp. revert acc. induction Hp as [|c p [Hs Hd] _ IH]; intros acc;
    simpl; [done|].
  apply Ascii.eqb_neq in Hs, Hd. by rewrite Hs, Hd, IH.
Qed.

Lemma Ext_scan_shape (l : list ascii) (acc : string) :
  filepath.Ext_scan l acc = "" ∨
  ∃ p, Forall (λ c, c ≠ "/"%char ∧ c ≠ "."%char) p ∧
       filepath.Ext_scan l acc =
         String "." (fold_left (λ a c, String c a) p acc).
Proof.
  revert acc. induction l as [|c l IH]; intros acc; simpl; [by left|].
  destruct (Ascii.eqb_spec c "/"); [by left|].
  destruct (Ascii.eqb_spec c "."); [subst; right; by exists []|].
  destruct (IH (String c acc)) as [->|(p & Hp & ->)]; [by left|].
  right. exists (c :: p). split; [by constructor|done].
Qed.

(** A string without a separator is one element. *)
Lemma elements_plain (s : string) :
  Forall (λ c, c ≠ "/"%char) (String.list_ascii_of_string s) →
  filepath.elements s = [s].
Proof.
  induction s as [|c s IH]; simpl; [done|].
  intros [Hc Hs]%Forall_cons. apply Ascii.eqb_neq in Hc.
  by rewrite Hc, IH.
Qed.

Lemma elements_cons (s : string) :
  ∃ e es, filepath.elements s = e :: es.
Proof.
  induction s as [|c s (e & es & IH)]; simpl; [by eexists _, _|].
  destruct (Ascii.eqb c "/"); [by eexists _, _|].
  rewrite IH. by eexists _, _.
Qed.

Lemma elements_Join (dir name : string) :
  filepath.elements (dir +:+ "/" +:+ name) =
  filepath.elements dir ++ filepath.elements name.
Proof.
  induction dir as [|c dir IH]; simpl; [done|].
  rewrite IH. destruct (Ascii.eqb c "/"); [done|].
  by destruct (elements_cons dir) as (e & es & ->).
Qed.

Lemma append_assoc (a b c : string) : (a +:+ b) +:+ c = a +:+ b +:+ c.
Proof.
  induction a as [|x a IH]; [done|].
  change (String x ((a +:+ b) +:+ c) = String x (a +:+ b +:+ c)).
  by rewrite IH.
Qed.

Lemma concat_snoc (es : list string) (e : string) :
  String.concat "/" (es ++ [e]) =
  match es with
  | [] => e
  | _ => String.concat "/" es +:+ "/" +:+ e
  end.
Proof.
  induction es as [|x es IH]; [done|].
  destruct es as [|y es]; [done|].
  change (String.concat "/" ((x :: y :: es) ++ [e]))
    with (x +:+ "/" +:+ String.concat "/" ((y :: es) ++ [e])).
  rewrite IH.
  change (String.concat "/" (x :: y :: es))
    with (x +:+ "/" +:+ String.concat "/" (y :: es)).
  by rewrite !append_assoc.
Qed.

(** The extension [filepath.Ext] gives has no separator in it. *)
Lemma Ext_plain (path : string) :
  Forall (λ c, c ≠ "/"%char)
    (String.list_ascii_of_string (filepath.Ext path)).
Proof.
  unfold filepath.Ext.
  destruct (Ext_scan_shape (rev (String.list_ascii_of_string path)) "")
    as [->|(p & Hp & ->)]; [constructor|].
  simpl. constructor; [done|]. rewrite list_ascii_push, app_nil_r.
  apply Forall_rev. eapply Forall_impl; [done|]. by intros c [? _].
Qed.

Lemma Ext_scan_element (l r : list ascii) (acc : string) :
  filepath.Ext_scan (l ++ "/"%char :: r) acc = filepath.Ext_scan l acc.
Proof.
  revert acc. induction l as [|c l IH]; intros acc; simpl; [done|].
  by rewrite IH.
Qed.

Lemma Ext_last_element (dir name : string) :
  filepath.Ext (dir +:+ "/" +:+ name) = filepath.Ext name.
Proof.
  unfold filepath.Ext. rewrite !list_ascii_app, !rev_app_distr. simpl.
  rewrite <- app_assoc. simpl. apply Ext_scan_element.
Qed.

(** The extension of [input] followed by an extension is that extension. *)
Lemma Ext_input (path : string) :
  filepath.Ext ("input" +:+ filepath.Ext path) = filepath.Ext path.
Proof.
  destruct (Ext_scan_shape (rev (String.list_ascii_of_string path)) "")
    as [He|(p & Hp & He)]; fold (filepath.Ext path) in He; rewrite He.
  - done.
  - unfold filepath.Ext at 1. rewrite !list_ascii_app. simpl.
    rewrite list_ascii_push. simpl. rewrite app_nil_r, rev_involutive.
    rewrite <- !app_assoc. simpl. by rewrite Ext_scan_plain.
Qed.

Lemma Clean_step_name rooted kept name :
  name ≠ "" → name ≠ "." → name ≠ ".." →
  filepath.Clean_step rooted kept name = name :: kept.
Proof.
  intros H0%String.eqb_neq H1%String.eqb_neq H2%String.eqb_neq.
  unfold filepath.Clean_step. by rewrite H0, H1, H2.
Qed.

(** What [filepath.Clean] makes of the elements of a path that ends in an
    ordinary name: the cleaned path is that name, or ends in a separator and
    that name. *)
Lemma Clean_ends_in_name (path name : string) (before : list string) :
  path ≠ "" →
  filepath.elements path = before ++ [name] →
  name ≠ "" → name ≠ "." → name ≠ ".." →
  filepath.Clean path = name ∨
  ∃ dir, filepath.Clean path = dir +:+ "/" +:+ name.
Proof.
  intros Hp%String.eqb_neq Hel H0 H1 H2.
  unfold filepath.Clean. rewrite Hp, Hel, fold_left_app. simpl.
  set (rooted := String.prefix "/" path).
  set (kept := fold_left _ before []).
  rewrite Clean_step_name by done. simpl. rewrite concat_snoc.
  apply String.eqb_neq in H0.
  destruct rooted.
  - right. destruct (rev kept) as [|x xs]; [exists ""; reflexivity|].
    exists ("/" +:+ String.concat "/" (x :: xs)). by rewrite append_assoc.
  - destruct (rev kept) as [|x xs].
    + left. by rewrite H0.
    + right. exists (String.concat "/" (x :: xs)).
      assert (String.eqb (String.concat "/" (x :: xs) +:+ "/" +:+ name) ""
              = false) as ->; [|done].
      apply String.eqb_neq. by destruct (String.concat "/" (x :: xs)).
Qed.

(** The path [filepath.Join] gives for a directory and the name of the
    staged file has the extension of the key. *)
Lemma Ext_Join_input (tempDir s3Key : string) :
  filepath.Ext (filepath.Join tempDir ("input" +:+ filepath.Ext s3Key)) =
  filepath.Ext s3Key.
Proof.
  set (name := "input" +:+ filepath.Ext s3Key).
  assert (filepath.elements name = [name]) as Hel.
  { apply elements_plain. unfold name. rewrite list_ascii_app.
    apply Forall_app. split; [by repeat constructor|apply Ext_plain]. }
  assert (∃ path, filepath.Join tempDir name = filepath.Clean path ∧
            path ≠ "" ∧ ∃ before, filepath.elements path = before ++ [name])
    as (path & -> & Hp & before & Hpath).
  { unfold filepath.Join. destruct (String.eqb_spec tempDir "") as [->|Hd].
    - exists name. split; [done|]. split; [done|]. by exists [].
    - exists (tempDir +:+ "/" +:+ name). split; [done|].
      split; [by destruct tempDir|].
      exists (filepath.elements tempDir). by rewrite elements_Join, Hel. }
  destruct (Clean_ends_in_name path name before) as [->|[dir ->]];
    try done.
  - apply Ext_input.
  - rewrite Ext_last_element. apply Ext_input.
Qed.

Section StagedFile.
Context {golib : GoLib}.

(** X6.  The local file the transcode sequence stages the original in has
    the extension of the object's key, whatever working directory the system
    gave: the path it creates (once the client, the directory and the
    request for the object have succeeded) and the path it hands to the
    encoder after [-i] both have [filepath.Ext(s3Key)] as their extension. *)
Theorem X6_staged_file_keeps_extension env id key st :
  post (transcodeVideo env id key) st (λ _ _ t,
    (∀ p, EvCreate p ∈ t → filepath.Ext p = filepath.Ext key) ∧
    (∀ args, EvCommand "ffmpeg" args ∈ t →
       ∃ p rest, args = "-i" :: p :: rest ∧
                 filepath.Ext p = filepath.Ext key) ∧
    (∀ d, minio_new env = None → mkdir_temp env = Ok d →
          get_object env = None →
          EvCreate (filepath.Join d ("input" +:+ filepath.Ext key)) ∈ t)).
Proof.
  unfold transcodeVideo.
  repeat first [apply (post_getVideoDuration_value _ _ _ st) | post_step].
  all: split; [intros p Hin; split_in Hin; simplify_eq;
               apply Ext_Join_input|].
  all: split; [intros args Hin; split_in Hin; simplify_eq;
               (eexists _, _; split; [done|apply Ext_Join_input])|].
  all: intros d ? ? ?; simplify_eq; first [congruence|by in_trace].
Qed.

End StagedFile.

(** *** The producer of the event *)

Ltac run_endpoint :=
  unfold ConfirmUpload, DeleteMedia, response, store_after, effects_of,
    select_media;
  unfold_m; simpl.

(** What [ConfirmUpload] does when it goes through. *)
Lemma ConfirmUpload_done env user req st row :
  req_MediaID req ≠ "" →
  confirm_select_err env = None →
  media st !! req_MediaID req = Some row →
  owner_id row = user →
  confirm_update_err env = None →
  ConfirmUpload env user req st =
    (Done {| confirmed_MediaID := req_MediaID req;
             confirmed_Status := "queued" |},
     on_media (alter (set_queued (req_SizeBytes req)) (req_MediaID req)) st,
     EfPublish {| MediaID := req_MediaID req; S3Key := s3_key_original row;
                  OwnerID := owner_id row |} (confirm_publish_err env) ::
     match confirm_publish_err env with
     | Some e => [EfLog Error "failed to publish media uploaded event"
                    [("error", e)]]
     | None => []
     end).
Proof.
  intros Hid Hsel Hrow Hown Hupd. run_endpoint.
  apply String.eqb_neq in Hid. rewrite Hid, Hsel, Hrow. simpl.
  apply Z.eqb_eq in Hown. by rewrite Hown, Hupd.
Qed.

(** X11.  A request that [ConfirmUpload] rejects changes nothing and
    publishes nothing.  It is rejected with 'invalid argument' for an empty
    id, with 'not found' when the row cannot be read, with 'permission
    denied' when the row is another user's, and with 'internal' when the
    update is rejected; a user can therefore neither requeue nor have
    processed an item that is not theirs. *)
Theorem X11_confirm_rejections env user req st :
  (∀ code msg,
     response (ConfirmUpload env user req st) = Failed code msg →
     store_after (ConfirmUpload env user req st) = st ∧
     ∀ ev o, EfPublish ev o ∉ effects_of (ConfirmUpload env user req st)) ∧
  (req_MediaID req = "" →
     response (ConfirmUpload env user req st) =
       Failed InvalidArgument "media_id is required") ∧
  (req_MediaID req ≠ "" →
   confirm_select_err env ≠ None ∨ media st !! req_MediaID req = None →
     response (ConfirmUpload env user req st) =
       Failed NotFound "media not found") ∧
  (∀ row, req_MediaID req ≠ "" → confirm_select_err env = None →
     media st !! req_MediaID req = Some row →
     (owner_id row ≠ user →
        response (ConfirmUpload env user req st) =
          Failed PermissionDenied "not authorized") ∧
     (owner_id row = user → confirm_update_err env ≠ None →
        response (ConfirmUpload env user req st) =
          Failed Internal "failed to update media")).
Proof.
  run_endpoint. split; [|split; [|split]].
  - intros code msg.
    destruct (String.eqb _ ""), (confirm_select_err env),
      (media st !! req_MediaID req) as [row|]; simpl;
      try destruct (owner_id row =? user); simpl;
      try destruct (confirm_update_err env); simpl; intros Hr;
      try discriminate; split; try done; intros ev o Hin;
      repeat (apply elem_of_cons in Hin as [Hin|Hin]; [discriminate|]);
      by apply elem_of_nil in Hin.
  - by intros ->.
  - intros Hid%String.eqb_neq Hno. rewrite Hid.
    destruct (confirm_select_err env); [done|].
    destruct Hno as [Hno|Hno]; [done|]. by rewrite Hno.
  - intros row Hid%String.eqb_neq Hsel Hrow. rewrite Hid, Hsel, Hrow. simpl.
    split.
    + intros Hown%Z.eqb_neq. by rewrite Hown.
    + intros Hown%Z.eqb_eq Hupd. rewrite Hown. simpl.
      by destruct (confirm_update_err env).
Qed.

(** X12.  [ConfirmUpload] by the owner goes through whatever the status of
    the row is and whether or not the event can be published: the response
    is 'queued'; the row gets status 'queued' and, for a size that is not 0,
    that size; its keys, owner and duration are as they were; every other
    row and the jobs table are as they were; and one event is handed to the
    topic, carrying the id, the row's original key and the row's owner. *)
Theorem X12_confirm_requeues env user req st row :
  req_MediaID req ≠ "" →
  confirm_select_err env = None →
  media st !! req_MediaID req = Some row →
  owner_id row = user →
  confirm_update_err env = None →
  response (ConfirmUpload env user req st) =
    Done {| confirmed_MediaID := req_MediaID req;
            confirmed_Status := "queued" |} ∧
  (∃ row', media (store_after (ConfirmUpload env user req st))
             !! req_MediaID req = Some row' ∧
     status row' = "queued" ∧
     size_bytes row' = (if Z.eqb (req_SizeBytes req) 0 then size_bytes row
                        else Some (req_SizeBytes req)) ∧
     s3_key_original row' = s3_key_original row ∧
     s3_key_processed row' = s3_key_processed row ∧
     owner_id row' = owner_id row ∧
     duration_seconds row' = duration_seconds row) ∧
  (∀ k, k ≠ req_MediaID req →
     media (store_after (ConfirmUpload env user req st)) !! k =
     media st !! k) ∧
  processing_jobs (store_after (ConfirmUpload env user req st)) =
    processing_jobs st ∧
  ∃ rest,
    effects_of (ConfirmUpload env user req st) =
      EfPublish {| MediaID := req_MediaID req;
                   S3Key := s3_key_original row; OwnerID := user |}
        (confirm_publish_err env) :: rest ∧
    ∀ ev o, EfPublish ev o ∉ rest.
Proof.
  intros Hid Hsel Hrow Hown Hupd.
  rewrite (ConfirmUpload_done env user req st row) by done.
  unfold response, store_after, effects_of. simpl.
  split; [done|]. split; [|split; [|split; [done|]]].
  - exists (set_queued (req_SizeBytes req) row).
    by rewrite lookup_alter_eq, Hrow.
  - intros k Hk. by rewrite lookup_alter_ne.
  - rewrite Hown. eexists. split; [done|]. intros ev o Hin.
    destruct (confirm_publish_err env);
      repeat (apply elem_of_cons in Hin as [Hin|Hin]; [discriminate|]);
      by apply elem_of_nil in Hin.
Qed.

(** X13.  After [ConfirmUpload] has gone through, and as long as no job row
    refers to the item, the status query answers 'queued' with no error
    message. *)
Theorem X13_status_query_after_confirm env qenv user req st row :
  req_MediaID req ≠ "" →
  confirm_select_err env = None →
  media st !! req_MediaID req = Some row →
  owner_id row = user →
  confirm_update_err env = None →
  (∀ j, j ∈ processing_jobs st → job_media_id j ≠ req_MediaID req) →
  select_media_err qenv = None →
  value (GetJobStatus qenv (req_MediaID req)
           (store_after (ConfirmUpload env user req st))) =
    Ok {| resp_MediaID := req_MediaID req; resp_Status := "queued";
          resp_ErrorMessage := None |}.
Proof.
  intros Hid Hsel Hrow Hown Hupd Hno Hq.
  rewrite (ConfirmUpload_done env user req st row) by done.
  unfold store_after. simpl.
  unfold GetJobStatus. unfold_m. unfold select_media. simpl.
  assert (select_latest_job (req_MediaID req)
            (on_media (alter (set_queued (req_SizeBytes req))
                         (req_MediaID req)) st) = None) as Hnone
    by by apply select_latest_job_None.
  rewrite Hnone, Hq.
  destruct (select_job_err qenv); simpl; by rewrite lookup_alter_eq, Hrow.
Qed.

(** *** A consumer of the keys *)

(** X15.  [DeleteMedia] for a row that cannot be read answers 'not found',
    and for a row of another user 'permission denied'; in both cases the
    store is as it was and no object is removed. *)
Theorem X15_delete_rejections env user id st :
  (delete_select_err env ≠ None ∨ media st !! id = None →
     DeleteMedia env user id st =
       (Failed NotFound "media not found", st, [])) ∧
  (∀ row, delete_select_err env = None → media st !! id = Some row →
     owner_id row ≠ user →
     DeleteMedia env user id st =
       (Failed PermissionDenied "not authorized", st, [])).
Proof.
  run_endpoint. split.
  - intros Hno. destruct (delete_select_err env); [done|].
    destruct Hno as [Hno|Hno]; [done|]. by rewrite Hno.
  - intros row Hsel Hrow Hown%Z.eqb_neq. rewrite Hsel, Hrow. simpl.
    by rewrite Hown.
Qed.

(** X16.  [DeleteMedia] by the owner: with an object-store client, it
    removes the original object and, when the row has a processed key that
    is neither NULL nor empty, the processed object, and nothing else;
    without a client it removes no object.  It does so before it deletes the
    row: when the delete is accepted the row is gone, every other row and
    the jobs table being as they were; when the delete is rejected the
    answer is 'internal' and the row is still there, the objects having been
    removed all the same. *)
Theorem X16_delete_by_owner env user id st row :
  delete_select_err env = None →
  media st !! id = Some row →
  owner_id row = user →
  effects_of (DeleteMedia env user id st) =
    match delete_minio_err env with
    | None =>
        EfRemoveObject (delete_bucket env) (s3_key_original row) ::
        match s3_key_processed row with
        | None | Some "" => []
        | Some key => [EfRemoveObject (delete_bucket env) key]
        end
    | Some _ => []
    end ∧
  match delete_exec_err env with
  | None =>
      response (DeleteMedia env user id st) = Done true ∧
      media (store_after (DeleteMedia env user id st)) !! id = None ∧
      (∀ k, k ≠ id →
         media (store_after (DeleteMedia env user id st)) !! k =
         media st !! k) ∧
      processing_jobs (store_after (DeleteMedia env user id st)) =
        processing_jobs st
  | Some _ =>
      response (DeleteMedia env user id st) =
        Failed Internal "failed to delete media" ∧
      store_after (DeleteMedia env user id st) = st
  end.
Proof.
  intros Hsel Hrow Hown%Z.eqb_eq. run_endpoint.
  rewrite Hsel, Hrow. simpl. rewrite Hown. simpl. split.
  - destruct (delete_exec_err env), (delete_minio_err env); simpl; try done.
    all: destruct (s3_key_processed row) as [[|c key]|]; done.
  - destruct (delete_exec_err env); simpl; [done|].
    split; [done|]. split; [by rewrite lookup_delete_eq|].
    split; [|done]. intros k Hk. by rewrite lookup_delete_ne.
Qed.

(** X18.  The jobs of a deleted item stay: after [DeleteMedia] has gone
    through, the status query still answers from the most recent job row of
    the item as it did before, and answers 'media not found' only when no
    job row refers to the item. *)
Theorem X18_status_query_after_delete env qenv user id st row :
  delete_select_err env = None →
  media st !! id = Some row →
  owner_id row = user →
  delete_exec_err env = None →
  (select_job_err qenv = None →
   (∃ j, j ∈ processing_jobs st ∧ job_media_id j = id) →
     value (GetJobStatus qenv id (store_after (DeleteMedia env user id st))) =
     value (GetJobStatus qenv id st) ∧
     ∃ j, j ∈ processing_jobs st ∧ job_media_id j = id ∧
          value (GetJobStatus qenv id st) =
            Ok {| resp_MediaID := id; resp_Status := job_status j;
                  resp_ErrorMessage := error_message j |}) ∧
  ((∀ j, j ∈ processing_jobs st → job_media_id j ≠ id) →
     value (GetJobStatus qenv id (store_after (DeleteMedia env user id st))) =
       Err "media not found").
Proof.
  intros Hsel Hrow Hown%Z.eqb_eq Hdel.
  assert (store_after (DeleteMedia env user id st) = on_media (delete id) st)
    as ->.
  { run_endpoint. rewrite Hsel, Hrow. simpl. by rewrite Hown, Hdel. }
  split.
  - intros Hq (j & Hj & Hid).
    destruct (select_latest_job id st) as [k|] eqn:Hk.
    + assert (select_latest_job id (on_media (delete id) st) = Some k)
        as Hk' by done.
      rewrite (GetJobStatus_of_job _ _ _ _ Hq Hk),
        (GetJobStatus_of_job _ _ _ _ Hq Hk').
      split; [done|].
      apply select_latest_job_Some in Hk as (Hin & Hm & _).
      exists k. by rewrite Hm.
    + pose proof (proj1 (select_latest_job_None id st) Hk) as Hk'.
      by destruct (Hk' j Hj).
  - intros Hno.
    assert (select_latest_job id (on_media (delete id) st) = None) as Hnone
      by by apply select_latest_job_None.
    unfold GetJobStatus. unfold_m. unfold select_media. simpl.
    rewrite Hnone.
    destruct (select_job_err qenv), (select_media_err qenv); simpl;
      by rewrite ?lookup_delete_eq.
Qed.

(** *** The key of the upload *)

Lemma Ext_original_key user id name :
  filepath.Ext (original_key user id name) = filepath.Ext name.
Proof.
  unfold original_key, filepath.Ext.
  rewrite !list_ascii_app, !rev_app_distr. simpl.
  rewrite <- !app_assoc. simpl. apply Ext_scan_element.
Qed.

Ltac in_statuses :=
  first [ assumption
        | unfold media_statuses, job_statuses; by repeat constructor ].

Section KeysAndChecks.
Context {golib : GoLib}.

(** The key the transcode sequence returns without an error. *)
Lemma transcodeVideo_key env id key st :
  post (transcodeVideo env id key) st (λ v _ _,
    v.2 = None →
    v.1 = if isVideoFile key then "processed/" +:+ id +:+ ".mp4" else "").
Proof.
  unfold transcodeVideo.
  repeat first [apply post_getVideoDuration; intros ? ? | post_step].
  all: simpl; intros ?; simplify_eq; try done.
  all: by destruct (isVideoFile key).
Qed.

Lemma processMedia_status_failure env msg st e :
  set_processing_err env = Some e →
  post (processMedia env msg) st (λ v s _, v = Some e).
Proof.
  intros Hproc. unfold processMedia. repeat (post_step; try congruence).
Qed.

(** The transcode sequence asks the bucket for the object under the key it
    is given, once it has a client and a working directory. *)
Lemma transcodeVideo_fetches env id key st d :
  minio_new env = None → mkdir_temp env = Ok d →
  post (transcodeVideo env id key) st (λ _ _ t,
    EvGetObject (S3Bucket env) key ∈ t).
Proof.
  intros Hc Hd. unfold transcodeVideo.
  repeat first [apply post_getVideoDuration; intros ? ? | post_step].
  all: first [congruence | by in_trace].
Qed.

(** X17.  What [DeleteMedia] removes after the handler has returned without
    an error: the original object and, for a video key, the object
    [processed/<id>.mp4]; for a key that is not a video's, the handler has
    written the empty processed key and no processed object is removed. *)
Theorem X17_delete_after_processing env denv msg st row :
  media st !! MediaID msg = Some row →
  delete_select_err denv = None →
  delete_minio_err denv = None →
  post (processMedia env msg) st (λ v s _,
    v = None →
    effects_of (DeleteMedia denv (owner_id row) (MediaID msg) s) =
      EfRemoveObject (delete_bucket denv) (s3_key_original row) ::
      (if isVideoFile (S3Key msg)
       then [EfRemoveObject (delete_bucket denv)
               ("processed/" +:+ MediaID msg +:+ ".mp4")]
       else [])).
Proof.
  intros Hrow Hsel Hminio.
  destruct (set_processing_err env) as [e|] eqn:Hproc.
  { eapply post_conseq; [by apply processMedia_status_failure|].
    simpl. congruence. }
  eapply post_conseq;
    [apply post_conj; [by apply processMedia_run|apply processMedia_only_row]|].
  intros v s t [(_ & _ & _ & Hh) [_ Ho]] ->.
  pose proof (transcodeVideo_key env (MediaID msg) (S3Key msg) st) as Hk.
  unfold post in Hk.
  destruct (value (transcodeVideo env (MediaID msg) (S3Key msg) st))
    as [k [e|]]; simpl in *; [by destruct Hh|].
  destruct Hh as (Hready & _ & Hs). symmetry in Hready.
  destruct (Hs Hready) as [Hs' _].
  destruct Hs' as [_ Hkey]; [by eexists|].
  rewrite Hrow in Ho. inversion Ho as [r r' [Hown Horig] Hr Hr'|]. subst.
  rewrite <- Hr' in Hkey. simpl in Hkey. simplify_eq.
  run_endpoint. rewrite Hsel, <- Hr'. simpl.
  rewrite Hown, Z.eqb_refl, Hminio, Horig. simpl.
  rewrite Hkey, (Hk eq_refl). simpl.
  destruct (delete_exec_err denv), (isVideoFile (S3Key msg)); done.
Qed.

(** *** The CHECK constraints *)

Lemma checked_step s st :
  stmt_checked s → checked st → checked (apply_stmt s st).
Proof.
  intros Hs [Hm Hj].
  assert (∀ f id,
            (∀ r, status r ∈ media_statuses → status (f r) ∈ media_statuses) →
            map_Forall (λ _ r, status r ∈ media_statuses)
              (alter f id (media st))) as Halter.
  { intros f id Hf k r. rewrite lookup_alter_Some.
    intros [(_ & r' & Hr' & ->)|[_ Hr]]; [apply Hf|]; by eapply Hm. }
  assert (∀ f id, (∀ j, job_status (f j) ∈ job_statuses) →
            Forall (λ j, job_status j ∈ job_statuses)
              (update_job id f (processing_jobs st))) as Hupd.
  { intros f id Hf. unfold update_job. apply Forall_fmap.
    eapply Forall_impl; [done|]. simpl. intros j Hin.
    by destruct (String.eqb _ _). }
  destruct s; simpl in *; split; try done.
  all: first
    [ apply Halter; intros r ?; simpl; in_statuses
    | apply Hupd; intros j; simpl; in_statuses
    | apply Forall_app; split; [done|]; constructor; [|done]; simpl;
      in_statuses ].
Qed.

Lemma checked_frame st s : frame st s → checked st → checked s.
Proof.
  intros [Hjobs Hrows] [Hm Hj]. split; [|by rewrite Hjobs].
  intros k r' Hr'. specialize (Hrows k). rewrite Hr' in Hrows.
  inversion Hrows as [r ? [Hst _] Hr|]. subst. rewrite Hst.
  by eapply Hm.
Qed.

Lemma processMedia_checked env msg st :
  checked st → post (processMedia env msg) st (λ _ s _, checked s).
Proof.
  intros Hc. unfold processMedia.
  repeat first [apply (post_transcodeVideo _ _ _ _ st); intros | post_step].
  all: repeat (apply checked_step; [simpl; by in_statuses|]).
  all: first
    [ done
    | eapply checked_frame; [eassumption|];
      repeat (apply checked_step; [simpl; by in_statuses|]); done ].
Qed.

(** X19.  No operation writes a status that the [CHECK] constraint of its
    table rejects: when every media row and every job row has one of the
    admitted statuses, so it is after a run of the handler, and after
    [SignUpload], [ConfirmUpload] and [DeleteMedia]. *)
Theorem X19_statuses_pass_the_checks st :
  checked st →
  (∀ env msg, post (processMedia env msg) st (λ _ s _, checked s)) ∧
  (∀ env user req, checked (store_after (SignUpload env user req st))) ∧
  (∀ env user req, checked (store_after (ConfirmUpload env user req st))) ∧
  (∀ env user id, checked (store_after (DeleteMedia env user id st))).
Proof.
  intros Hc. split; [intros; by apply processMedia_checked|].
  destruct Hc as [Hm Hj]. split; [|split].
  - intros env user req. unfold SignUpload, store_after, insert_fault.
    repeat case_match; simpl; try done.
    split; [|done]. simpl. apply map_Forall_insert_2; [|done].
    simpl. in_statuses.
  - intros env user req. unfold ConfirmUpload, store_after.
    repeat case_match; simpl; try done.
    all: split; [|done]; simpl; intros k r; rewrite lookup_alter_Some.
    all: intros [(_ & r' & Hr' & ->)|[_ Hr]];
      [simpl; in_statuses|by eapply Hm].
  - intros env user id. unfold DeleteMedia, store_after.
    repeat case_match; simpl; try done.
    all: split; [|done]; simpl; by apply map_Forall_delete.
Qed.

End KeysAndChecks.

(** *** The request for an upload *)

(** What [SignUpload] does when it goes through. *)
Lemma SignUpload_done env user req st url :
  req_Filename req ≠ "" →
  sign_minio_err env = None →
  sign_presigned env = Ok url →
  sign_insert_err env = None →
  media st !! sign_uuid env = None →
  SignUpload env user req st =
    (Done {| signed_UploadURL := url;
             signed_S3Key :=
               original_key user (sign_uuid env) (req_Filename req);
             signed_MediaID := sign_uuid env |},
     on_media (insert (sign_uuid env)
                 (uploading user
                    (original_key user (sign_uuid env) (req_Filename req))))
       st,
     [EfPresignedPutObject (sign_bucket env)
        (original_key user (sign_uuid env) (req_Filename req)) 15]).
Proof.
  intros Hname%String.eqb_neq Hminio Hurl Hins Hfresh.
  unfold SignUpload, insert_fault.
  by rewrite Hname, Hminio, Hurl, Hins, Hfresh.
Qed.

(** X20.  [SignUpload] changes the store only when it answers with a
    response, and an empty file name is rejected with 'invalid argument'
    before anything is done.  When it answers, the id it gives was not in
    the table, the table has one more row, for that id, with status
    'uploading', the caller as owner and the key of the response as original
    key, every other row and the jobs table being as they were; the key has
    the extension of the file name; and one URL was requested, for that key
    in the bucket, valid for 15 minutes. *)
Theorem X20_sign_upload env user req st :
  (∀ code msg,
     response (SignUpload env user req st) = Failed code msg →
     store_after (SignUpload env user req st) = st) ∧
  (req_Filename req = "" →
     SignUpload env user req st =
       (Failed InvalidArgument "filename is required", st, [])) ∧
  (∀ resp,
     response (SignUpload env user req st) = Done resp →
     media st !! signed_MediaID resp = None ∧
     media (store_after (SignUpload env user req st))
       !! signed_MediaID resp =
       Some (uploading user (signed_S3Key resp)) ∧
     (∀ k, k ≠ signed_MediaID resp →
        media (store_after (SignUpload env user req st)) !! k =
        media st !! k) ∧
     processing_jobs (store_after (SignUpload env user req st)) =
       processing_jobs st ∧
     filepath.Ext (signed_S3Key resp) = filepath.Ext (req_Filename req) ∧
     effects_of (SignUpload env user req st) =
       [EfPresignedPutObject (sign_bucket env) (signed_S3Key resp) 15]).
Proof.
  unfold SignUpload, insert_fault, response, store_after, effects_of.
  split; [|split].
  - intros code msg. repeat case_match; simpl; done.
  - intros ->. done.
  - intros resp. repeat case_match; simpl; try done.
    intros [= <-]. simpl.
    split; [done|]. split; [by rewrite lookup_insert_eq|].
    split; [intros k Hk; by rewrite lookup_insert_ne|].
    split; [done|]. split; [apply Ext_original_key|done].
Qed.

Section Pipeline.
Context {golib : GoLib}.

(** X14.  From the request for an upload to the processed item.  When
    [SignUpload] goes through for a file name with a video extension,
    [ConfirmUpload] by the same user for the id it gave goes through and
    publishes, and the handler then processes the event that was published
    with every call succeeding, then the handler fetches the object under
    the key that was signed, returns no error, and leaves the row 'ready',
    with [processed/<id>.mp4] as processed key, the signed key as original
    key and the user as owner. *)
Theorem X14_upload_pipeline senv cenv env user sreq title bytes st
    url d out size :
  req_Filename sreq ≠ "" →
  sign_uuid senv ≠ "" →
  sign_minio_err senv = None →
  sign_presigned senv = Ok url →
  sign_insert_err senv = None →
  media st !! sign_uuid senv = None →
  confirm_select_err cenv = None →
  confirm_update_err cenv = None →
  confirm_publish_err cenv = None →
  isVideoFile (req_Filename sreq) = true →
  set_processing_err env = None →
  staging env = Some d →
  ffmpeg env = (out, None) →
  os_open env = None →
  file_stat env = Ok size →
  put_object env = None →
  set_ready_err env = None →
  ∃ ev,
    effects_of
      (ConfirmUpload cenv user
         {| req_MediaID := sign_uuid senv; req_Title := title;
            req_SizeBytes := bytes |}
         (store_after (SignUpload senv user sreq st))) =
      [EfPublish ev None] ∧
    post (processMedia env ev)
      (store_after
         (ConfirmUpload cenv user
            {| req_MediaID := sign_uuid senv; req_Title := title;
               req_SizeBytes := bytes |}
            (store_after (SignUpload senv user sreq st))))
      (λ v s t,
        v = None ∧
        EvGetObject (S3Bucket env)
          (original_key user (sign_uuid senv) (req_Filename sreq)) ∈ t ∧
        ∃ row, media s !! sign_uuid senv = Some row ∧
          status row = "ready" ∧
          s3_key_processed row =
            Some ("processed/" +:+ sign_uuid senv +:+ ".mp4") ∧
          s3_key_original row =
            original_key user (sign_uuid senv) (req_Filename sreq) ∧
          owner_id row = user).
Proof.
  intros Hname Hid Hminio Hurl Hins Hfresh Hsel Hupd Hpub Hv Hproc Hst Hff
    Hop Hstat Hput Hready.
  rewrite (SignUpload_done senv user sreq st url) by done.
  unfold store_after, effects_of. cbn [fst snd].
  set (key := original_key user (sign_uuid senv) (req_Filename sreq)).
  set (st1 := on_media (insert (sign_uuid senv) (uploading user key)) st).
  assert (media st1 !! sign_uuid senv = Some (uploading user key)) as Hrow
    by (simpl; by rewrite lookup_insert_eq).
  rewrite (ConfirmUpload_done cenv user _ st1 (uploading user key)) by done.
  cbn [fst snd req_MediaID req_SizeBytes]. rewrite Hpub.
  eexists. split; [done|].
  set (st2 := on_media _ st1).
  assert (media st2 !! sign_uuid senv =
            Some (set_queued bytes (uploading user key))) as Hrow2
    by (simpl; by rewrite lookup_alter_eq, lookup_insert_eq).
  assert (isVideoFile key = true) as Hvk.
  { unfold isVideoFile in *. unfold key. by rewrite Ext_original_key. }
  eapply post_conseq.
  - apply post_conj; [apply post_conj|].
    + eapply (processMedia_video_success env _ st2 d out size); try done.
      eexists. exact Hrow2.
    + by apply processMedia_run.
    + apply processMedia_only_row.
  - cbn [MediaID S3Key].
    intros v s t [[(-> & _ & Hs & Hk & _) (Hte & _)] [_ Ho]].
    split; [done|]. split.
    + apply Hte. apply staging_fields in Hst as (Hc & Hd & _).
      by apply (transcodeVideo_fetches env _ _ st2 d).
    + rewrite Hrow2 in Ho. inversion Ho as [r r' [Hown Horig] Hr Hr'|].
      subst. rewrite <- Hr' in Hs, Hk. simpl in *. simplify_eq.
      exists r'. done.
Qed.

End Pipeline.

(** ** The further properties on concrete runs *)

Section MoreExamples.
#[local] Existing Instance Fixture.go.
Import Fixture MediaFixture.

Example checked_store0 : bool_decide (checked store0) = true.
Proof. vm_compute. reflexivity. Qed.

Example SignUpload_holiday :
  SignUpload sign_ok 7 holiday store0 =
    (Done {| signed_UploadURL := "http://localhost:9000/media-vault/put";
             signed_S3Key := "original/7/m3/holiday.MP4";
             signed_MediaID := "m3" |},
     on_media (insert "m3" (uploading 7 "original/7/m3/holiday.MP4")) store0,
     [EfPresignedPutObject "media-vault" "original/7/m3/holiday.MP4" 15]).
Proof. vm_compute. reflexivity. Qed.

Example ConfirmUpload_by_another_user :
  ConfirmUpload confirm_ok 8 confirm_clip store0 =
    (Failed PermissionDenied "not authorized", store0, []).
Proof. vm_compute. reflexivity. Qed.

Example DeleteMedia_rejected_delete :
  response (DeleteMedia delete_rejected 7 "m1" store_ready) =
    Failed Internal "failed to delete media" ∧
  effects_of (DeleteMedia delete_rejected 7 "m1" store_ready) =
    [EfRemoveObject "media-vault" "original/7/m1/clip.MOV";
     EfRemoveObject "media-vault" "processed/m1.mp4"] ∧
  store_after (DeleteMedia delete_rejected 7 "m1" store_ready) = store_ready.
Proof. vm_compute. done. Qed.

Lemma X1_witness :
  post (processMedia env_ok clip) store0 (λ v s t,
    v = None ∧
    EvPutObject "media-vault" "processed/m1.mp4" 4096 "video/mp4" ∈ t ∧
    status <$> media s !! "m1" = Some "ready" ∧
    s3_key_processed <$> media s !! "m1" = Some (Some "processed/m1.mp4")).
Proof.
  destruct (X1_video_success (golib := go) env_ok clip store0
              "/tmp/media-processing-1" "encoded 300 frames" 4096
              eq_refl eq_refl eq_refl eq_refl eq_refl eq_refl eq_refl
              eq_refl)
    as (Hv & Hput & Hs & Hk & _).
  - vm_compute. eauto.
  - unfold post. auto.
Defined.

Lemma X5_witness :
  value (processMedia env_ready_fails clip store0) =
    Some "connection refused" ∧
  status <$> media (final (processMedia env_ready_fails clip store0))
    !! "m1" = Some "processing".
Proof.
  destruct (X5_ready_update_failure_leaves_processing (golib := go)
              env_ready_fails clip store0 "processed/m1.mp4"
              "connection refused" eq_refl eq_refl eq_refl)
    as (Hv & Hs & _).
  split; [exact Hv|]. apply Hs. vm_compute. eauto.
Defined.

Lemma X9_witness :
  value (GetJobStatus qenv_ok "m1"
           (final (processMedia env_third clip store_two_jobs))) =
    Ok {| resp_MediaID := "m1"; resp_Status := "completed";
          resp_ErrorMessage := None |}.
Proof.
  assert (∀ j, j ∈ processing_jobs store_two_jobs →
            job_media_id j = MediaID clip →
            created_at j < insert_job_now env_third) as Hlt.
  { intros j Hj _.
    repeat (apply elem_of_cons in Hj as [->|Hj]; [simpl; lia|]).
    by apply elem_of_nil in Hj. }
  assert (new_job_id env_third ≠ "") as Hid by discriminate.
  exact (X9_status_query_after_run (golib := go) env_third qenv_ok clip
           store_two_jobs eq_refl eq_refl Hid eq_refl Hlt eq_refl).
Defined.

Lemma X12_witness :
  response (ConfirmUpload confirm_unpublished 7 confirm_clip store_ready) =
    Done {| confirmed_MediaID := "m1"; confirmed_Status := "queued" |} ∧
  (status <$>
     media (store_after
              (ConfirmUpload confirm_unpublished 7 confirm_clip store_ready))
       !! "m1") = Some "queued" ∧
  (s3_key_processed <$>
     media (store_after
              (ConfirmUpload confirm_unpublished 7 confirm_clip store_ready))
       !! "m1") = Some (Some "processed/m1.mp4").
Proof.
  assert (req_MediaID confirm_clip ≠ "") as Hid by discriminate.
  destruct (X12_confirm_requeues confirm_unpublished 7 confirm_clip
              store_ready (row_ready (S3Key clip) "processed/m1.mp4")
              Hid eq_refl eq_refl eq_refl eq_refl)
    as (Hr & (row' & Hl & Hs & _ & _ & Hk & _) & _).
  split; [exact Hr|]. simpl in Hl. rewrite Hl. simpl.
  rewrite Hs, Hk. done.
Defined.

Lemma X13_witness :
  value (GetJobStatus qenv_ok "m1"
           (store_after (ConfirmUpload confirm_ok 7 confirm_clip store0))) =
    Ok {| resp_MediaID := "m1"; resp_Status := "queued";
          resp_ErrorMessage := None |}.
Proof.
  assert (req_MediaID confirm_clip ≠ "") as Hid by discriminate.
  apply (X13_status_query_after_confirm confirm_ok qenv_ok 7 confirm_clip
           store0 (row_queued (S3Key clip)) Hid eq_refl eq_refl eq_refl
           eq_refl); [|reflexivity].
  intros j Hj. by apply elem_of_nil in Hj.
Defined.

Lemma X14_witness :
  ∃ ev,
    effects_of
      (ConfirmUpload confirm_ok 7
         {| req_MediaID := "m3"; req_Title := "Holiday";
            req_SizeBytes := 0 |}
         (store_after (SignUpload sign_ok 7 holiday store0))) =
      [EfPublish ev None] ∧
    post (processMedia env_ok ev)
      (store_after
         (ConfirmUpload confirm_ok 7
            {| req_MediaID := "m3"; req_Title := "Holiday";
               req_SizeBytes := 0 |}
            (store_after (SignUpload sign_ok 7 holiday store0))))
      (λ v s t,
        v = None ∧
        EvGetObject "media-vault" (original_key 7 "m3" "holiday.MP4") ∈ t ∧
        ∃ row, media s !! "m3" = Some row ∧
          status row = "ready" ∧
          s3_key_processed row = Some "processed/m3.mp4" ∧
          s3_key_original row = original_key 7 "m3" "holiday.MP4" ∧
          owner_id row = 7).
Proof.
  assert (req_Filename holiday ≠ "") as Hname by discriminate.
  assert (sign_uuid sign_ok ≠ "") as Hid by discriminate.
  exact (X14_upload_pipeline (golib := go) sign_ok confirm_ok env_ok 7
           holiday "Holiday" 0 store0
           "http://localhost:9000/media-vault/put"
           "/tmp/media-processing-1" "encoded 300 frames" 4096
           Hname Hid eq_refl eq_refl eq_refl eq_refl eq_refl eq_refl eq_refl
           eq_refl eq_refl eq_refl eq_refl eq_refl eq_refl eq_refl eq_refl).
Defined.

Lemma X16_witness :
  effects_of (DeleteMedia delete_ok 7 "m1" store_ready) =
    [EfRemoveObject "media-vault" "original/7/m1/clip.MOV";
     EfRemoveObject "media-vault" "processed/m1.mp4"] ∧
  response (DeleteMedia delete_ok 7 "m1" store_ready) = Done true ∧
  media (store_after (DeleteMedia delete_ok 7 "m1" store_ready)) !! "m1" =
    None.
Proof.
  destruct (X16_delete_by_owner delete_ok 7 "m1" store_ready
              (row_ready (S3Key clip) "processed/m1.mp4")
              eq_refl eq_refl eq_refl)
    as (He & Hr & Hgone & _).
  split; [exact He|]. split; [exact Hr|exact Hgone].
Defined.

Lemma X17_witness :
  effects_of
    (DeleteMedia delete_ok 7 "m2" (final (processMedia env_ok notes store0)))
    = [EfRemoveObject "media-vault" "original/7/m2/notes.pdf"] ∧
  effects_of
    (DeleteMedia delete_ok 7 "m1" (final (processMedia env_ok clip store0)))
    = [EfRemoveObject "media-vault" "original/7/m1/clip.MOV";
       EfRemoveObject "media-vault" "processed/m1.mp4"].
Proof.
  split.
  - exact (X17_delete_after_processing (golib := go) env_ok delete_ok notes
             store0 (row_queued (S3Key notes)) eq_refl eq_refl eq_refl
             eq_refl).
  - exact (X17_delete_after_processing (golib := go) env_ok delete_ok clip
             store0 (row_queued (S3Key clip)) eq_refl eq_refl eq_refl
             eq_refl).
Defined.

Lemma X18_witness :
  value (GetJobStatus qenv_ok "m1"
           (store_after (DeleteMedia delete_ok 7 "m1" store_ready))) =
    Ok {| resp_MediaID := "m1"; resp_Status := "completed";
          resp_ErrorMessage := None |} ∧
  value (GetJobStatus qenv_ok "m2"
           (store_after (DeleteMedia delete_ok 7 "m2" store_ready))) =
    Err "media not found".
Proof.
  split.
  - destruct (X18_status_query_after_delete delete_ok qenv_ok 7 "m1"
                store_ready (row_ready (S3Key clip) "processed/m1.mp4")
                eq_refl eq_refl eq_refl eq_refl) as [Hjob _].
    destruct Hjob as [Heq _]; [reflexivity| |].
    + eexists. split; [apply list_elem_of_here|reflexivity].
    + rewrite Heq. reflexivity.
  - destruct (X18_status_query_after_delete delete_ok qenv_ok 7 "m2"
                store_ready (row_ready (S3Key notes) "processed/m2.mp4")
                eq_refl eq_refl eq_refl eq_refl) as [_ Hnone].
    apply Hnone. intros j Hj.
    repeat (apply elem_of_cons in Hj as [->|Hj]; [discriminate|]).
    by apply elem_of_nil in Hj.
Defined.

Lemma X19_witness :
  checked (final (processMedia env_encoder_fails clip store_two_jobs)) ∧
  checked (store_after (SignUpload sign_ok 7 holiday store_two_jobs)) ∧
  checked (store_after (ConfirmUpload confirm_ok 7 confirm_clip
                          store_two_jobs)) ∧
  checked (store_after (DeleteMedia delete_ok 7 "m1" store_two_jobs)).
Proof.
  assert (checked store_two_jobs) as Hc.
  { apply (bool_decide_unpack _). vm_compute. exact I. }
  destruct (X19_statuses_pass_the_checks (golib := go) store_two_jobs Hc)
    as (Hp & Hs & Hu & Hd).
  split; [exact (Hp env_encoder_fails clip)|].
  split; [apply Hs|]. split; [apply Hu|apply Hd].
Defined.

End MoreExamples.
